(** * The tiling engine of bismuth: [src/engine/engine.ts]

    A shallow embedding of class [TilingEngine] and the properties its
    specification states about it.

    [Window] objects are JavaScript objects shared by reference between the
    engine's list, the driver and the layouts, so the embedding keeps a heap
    of window records addressed by reference ([WinRef]); the engine's
    [windows] array is a list of references.  Calls to collaborators that
    have no return value ([Window.commit], [Layout.apply],
    [IDriver.setCurrentWindow], [KWinSetTimeout]) are recorded, in order, in
    a log.  JavaScript numbers are embedded as [Z]: every number the engine
    computes with is an integer (pixel coordinates, gaps, array indices and
    focus steps), on which the double-precision operations used here
    ([+], [-], [%]) are exact.

    [adjustLayout], [handleUserInput] and [cycleLayout] dispatch to the
    methods below and to the layout registry, whose code is outside
    [engine.ts]; they are embedded over a registry taken as a parameter
    ([LayoutStore]). *)

From Stdlib Require Import ZArith Lia.
From stdpp Require Import base decidable functions list.

(** ** Collaborator types *)

(** Object identity of a [Window]. *)
Definition WinRef := nat.

(** [IDriverContext]: an opaque identity. *)
Definition Ctx := nat.

(** Modelled from the spec: the [WindowState] enumeration is declared outside
    [engine.ts]; the engine names [Tile], [FreeTile] and [Float], the spec
    allows further host-defined states. *)
Inductive WindowState : Set :=
| Tile
| FreeTile
| Float
| HostState (tag : nat).

#[global] Instance WindowState_eq_dec : EqDecision WindowState.
Proof. solve_decision. Defined.

Module Rect.

(** Modelled from the spec: class [Rect] is declared outside [engine.ts]; a
    value (x, y, width, height), built by [new Rect(x, y, width, height)]. *)
Record t : Set := mk { x : Z; y : Z; width : Z; height : Z }.

(** Modelled from the spec: [Rect.equals], geometries agree when their four
    components do. *)
Definition equals (a b : t) : bool :=
  (x a =? x b)%Z && (y a =? y b)%Z &&
  (width a =? width b)%Z && (height a =? height b)%Z.

End Rect.

Module Window.

(** Modelled from the spec: class [Window] is declared outside [engine.ts].
    The fields are the members the engine reads or writes; [visible] is the
    method [visible(ctx)], which belongs to the host and which the engine never
    changes. *)
Record t : Type := mk {
  context : Ctx;
  state : WindowState;
  geometry : Rect.t;
  actualGeometry : Rect.t;
  noBorder : bool;
  shouldIgnore : bool;
  shouldFloat : bool;
  visible : Ctx -> bool
}.

(** [window.state = s] *)
Definition setState (s : WindowState) (w : t) : t :=
  mk (context w) s (geometry w) (actualGeometry w) (noBorder w)
     (shouldIgnore w) (shouldFloat w) (visible w).

(** [window.noBorder = b] *)
Definition setNoBorder (b : bool) (w : t) : t :=
  mk (context w) (state w) (geometry w) (actualGeometry w) b
     (shouldIgnore w) (shouldFloat w) (visible w).

(** [window.geometry = g] *)
Definition setGeometry (g : Rect.t) (w : t) : t :=
  mk (context w) (state w) g (actualGeometry w) (noBorder w)
     (shouldIgnore w) (shouldFloat w) (visible w).

End Window.

Module Layout.

(** Modelled from the spec: the layouts are declared outside [engine.ts].  A
    layout is a strategy that turns a window subset and an area into
    geometries: [apply(tiles, workingArea, fullArea)] receives the tile
    objects (here each reference with the record it points to at the time of
    the call) and the two areas, and assigns geometries to the tiles in
    place.  The result lists the geometry assigned to each tile, by
    position. *)
Record t : Type := mk {
  apply : list (WinRef * Window.t) -> Rect.t -> Rect.t -> list Rect.t
}.

End Layout.

(** The global [CONFIG], as far as the engine reads it. *)
Record Config : Set := mkConfig {
  screenGapLeft : Z;
  screenGapTop : Z;
  screenGapRight : Z;
  screenGapBottom : Z;
  maximizeSoleTile : bool;
  noTileBorder : bool
}.

(** What the engine reads from its surroundings and never writes:
    [CONFIG], the driver's queries and the layout registry's
    [getCurrentLayout]. *)
Record Env : Type := mkEnv {
  CONFIG : Config;
  getWorkingArea : Ctx -> Rect.t;
  getCurrentContext : Ctx;
  screens : list Ctx;
  getCurrentLayout : Ctx -> Layout.t
}.

(** The one closure the engine hands to [KWinSetTimeout], by the window it
    captures. *)
Inductive Callback : Set :=
| RecommitIfTiled (window : WinRef).

(** Calls to collaborators that return nothing. *)
Inductive Call : Type :=
| LayoutApply (tiles : list WinRef) (workingArea fullArea : Rect.t)
| WindowCommit (window : WinRef)
| SetCurrentWindow (window : option WinRef)
| KWinSetTimeout (cb : Callback) (ms : Z).

(** ** Engine state *)

Record Engine : Type := mkEngine {
  windows : list WinRef;            (* this.windows *)
  heap : WinRef -> Window.t;        (* the Window objects *)
  currentWindow : option WinRef;    (* driver.getCurrentWindow() *)
  calls : list Call                 (* collaborator calls so far, oldest first *)
}.

Definition setWindows (l : list WinRef) (e : Engine) : Engine :=
  mkEngine l (heap e) (currentWindow e) (calls e).

(** A field write on the object behind [r]. *)
Definition updWindow (r : WinRef) (f : Window.t -> Window.t) (e : Engine) : Engine :=
  mkEngine (windows e) (<[r := f (heap e r)]> (heap e)) (currentWindow e) (calls e).

Definition call (c : Call) (e : Engine) : Engine :=
  mkEngine (windows e) (heap e) (currentWindow e) (calls e ++ [c]).

(** Modelled from the spec: [Window.commit()] flushes the pending changes to
    the host. *)
Definition commit (r : WinRef) (e : Engine) : Engine :=
  call (WindowCommit r) e.

(** Modelled from the spec: [driver.setCurrentWindow(w)] makes [w] the
    window [getCurrentWindow()] returns.  The argument is what the array
    read produced, [None] standing for [undefined]. *)
Definition setCurrentWindow (w : option WinRef) (e : Engine) : Engine :=
  call (SetCurrentWindow w) (mkEngine (windows e) (heap e) w (calls e)).

(** ** JavaScript arrays *)

(** [l[i]]: [undefined] outside the array. *)
Definition arrGet {A} (l : list A) (i : Z) : option A :=
  if (i <? 0)%Z then None else l !! Z.to_nat i.

(** [l[i] = v].  A negative [i] sets a property of the array object and
    leaves its elements alone.  The engine only writes at indices returned by
    [indexOf], which are below the length ([indexOf_lt_length]), so that the
    array is never extended. *)
Definition arrSet {A} (l : list A) (i : Z) (v : A) : list A :=
  if (i <? 0)%Z then l else <[Z.to_nat i := v]> l.

(** [l.indexOf(w)]: the first index holding [w], or -1. *)
Definition indexOf (l : list WinRef) (w : WinRef) : Z :=
  match list_find (λ v, v = w) l with
  | Some (i, _) => Z.of_nat i
  | None => (-1)%Z
  end.

(** [l.splice(i, 1)] for [0 <= i]. *)
Definition splice1 {A} (l : list A) (i : Z) : list A :=
  delete (Z.to_nat i) l.

(** ** The engine's methods *)

Definition visibleIn (ctx : Ctx) (e : Engine) (r : WinRef) : Prop :=
  Window.visible (heap e r) ctx = true.

#[global] Instance visibleIn_dec ctx e r : Decision (visibleIn ctx e r).
Proof. unfold visibleIn. apply _. Defined.

(** [this.windows.filter((win) => win.visible(ctx))] *)
Definition visibleWindows (ctx : Ctx) (e : Engine) : list WinRef :=
  filter (visibleIn ctx e) (windows e).

Definition tileable (e : Engine) (r : WinRef) : Prop :=
  Window.state (heap e r) = Tile ∨ Window.state (heap e r) = FreeTile.

#[global] Instance tileable_dec e r : Decision (tileable e r).
Proof. unfold tileable. apply _. Defined.

(** [visibles.filter((win) => win.state === Tile || win.state === FreeTile)] *)
Definition tileWindows (ctx : Ctx) (e : Engine) : list WinRef :=
  filter (tileable e) (visibleWindows ctx e).

(** The body of the first [visibles.forEach] of [arrangeScreen]. *)
Definition resetWindow (cfg : Config) (e : Engine) (r : WinRef) : Engine :=
  let e1 :=
    if decide (Window.state (heap e r) = FreeTile)
    then updWindow r (Window.setState Tile) e else e in
  if decide (Window.state (heap e1 r) = Tile)
  then updWindow r (Window.setNoBorder (noTileBorder cfg)) e1 else e1.

(** The in-place assignment of geometries by a layout: the i-th tile
    receives the i-th geometry. *)
Definition assignGeometries (zs : list (WinRef * Rect.t)) (e : Engine) : Engine :=
  foldl (λ e' z, updWindow z.1 (Window.setGeometry z.2) e') e zs.

(** [layout.apply(tiles, workingArea, fullArea)] *)
Definition layoutApply (layout : Layout.t) (tiles : list WinRef)
    (workingArea fullArea : Rect.t) (e : Engine) : Engine :=
  let gs := Layout.apply layout (map (λ r, (r, heap e r)) tiles) workingArea fullArea in
  assignGeometries (zip tiles gs) (call (LayoutApply tiles workingArea fullArea) e).

Definition arrangeScreen (env : Env) (ctx : Ctx) (e : Engine) : Engine :=
  let layout := getCurrentLayout env ctx in
  let fullArea := getWorkingArea env ctx in
  let workingArea := Rect.mk
    (Rect.x fullArea + screenGapLeft (CONFIG env))
    (Rect.y fullArea + screenGapTop (CONFIG env))
    (Rect.width fullArea - (screenGapLeft (CONFIG env) + screenGapRight (CONFIG env)))
    (Rect.height fullArea - (screenGapTop (CONFIG env) + screenGapBottom (CONFIG env))) in
  let visibles := visibleWindows ctx e in
  let tiles := tileWindows ctx e in
  let e1 := foldl (resetWindow (CONFIG env)) e visibles in
  let e2 :=
    if maximizeSoleTile (CONFIG env) && bool_decide (length tiles = 1) then
      match arrGet tiles 0 with
      | Some t0 =>
          updWindow t0 (Window.setGeometry fullArea)
            (updWindow t0 (Window.setNoBorder true) e1)
      | None => e1
      end
    else if bool_decide (0 < length tiles) then
      layoutApply layout tiles workingArea fullArea e1
    else e1 in
  foldl (λ e' r, commit r e') e2 visibles.

(** [driver.forEachScreen((ctx) => this.arrangeScreen(ctx))] *)
Definition arrange (env : Env) (e : Engine) : Engine :=
  foldl (λ e' ctx, arrangeScreen env ctx e') e (screens env).

(** The closure passed to [KWinSetTimeout] in [enforceClientSize], run by
    the host's timer in whatever state the engine is in by then. *)
Definition runCallback (cb : Callback) (e : Engine) : Engine :=
  match cb with
  | RecommitIfTiled window =>
      if decide (Window.state (heap e window) = Tile) then commit window e else e
  end.

Definition enforceClientSize (window : WinRef) (e : Engine) : Engine :=
  if bool_decide (Window.state (heap e window) = Tile)
     && negb (Rect.equals (Window.actualGeometry (heap e window))
                          (Window.geometry (heap e window)))
  then call (KWinSetTimeout (RecommitIfTiled window) 10) e
  else e.

Definition manageClient (window : WinRef) (e : Engine) : Engine :=
  if Window.shouldIgnore (heap e window) then e
  else
    let e1 := updWindow window
      (Window.setState (if Window.shouldFloat (heap e window) then Float else Tile)) e in
    setWindows (windows e1 ++ [window]) e1.

Definition unmanageClient (window : WinRef) (e : Engine) : Engine :=
  let idx := indexOf (windows e) window in
  if (0 <=? idx)%Z then setWindows (splice1 (windows e) idx) e else e.

Definition moveFocus (env : Env) (step : Z) (e : Engine) : Engine :=
  if decide (step = 0%Z) then e
  else
    let window := currentWindow e in
    let ctx := match window with
               | Some w => Window.context (heap e w)
               | None => getCurrentContext env
               end in
    let visibles := visibleWindows ctx e in
    if decide (length visibles = 0) then e
    else
      let idx := match window with
                 | Some w => indexOf visibles w
                 | None => (-1)%Z
                 end in
      match window with
      | Some _ =>
          if (idx <? 0)%Z then setCurrentWindow (arrGet visibles 0) e
          else
            let num := Z.of_nat (length visibles) in
            let newIndex := Z.rem (idx + Z.rem step num + num) num in
            setCurrentWindow (arrGet visibles newIndex) e
      | None => setCurrentWindow (arrGet visibles 0) e
      end.

Definition moveTile (step : Z) (e : Engine) : Engine :=
  if decide (step = 0%Z) then e
  else
    match currentWindow e with
    | None => e
    | Some srcWin =>
        let ctx := Window.context (heap e srcWin) in
        let visibles := visibleWindows ctx e in
        if bool_decide (length visibles < 2) then e
        else
          let num := Z.of_nat (length visibles) in
          let srcIdx := indexOf visibles srcWin in
          let destIdx := Z.rem (srcIdx + Z.rem step num + num) num in
          if decide (srcIdx = destIdx) then e
          else
            match arrGet visibles destIdx with
            | Some destWin =>
                let srcListIdx := indexOf (windows e) srcWin in
                let destListIdx := indexOf (windows e) destWin in
                setWindows
                  (arrSet (arrSet (windows e) destListIdx srcWin) srcListIdx destWin) e
            | None => e (* not reached: [destWin_defined] *)
            end
    end.

Definition setMaster (window : WinRef) (e : Engine) : Engine :=
  if decide (arrGet (windows e) 0 = Some window) then e
  else
    let idx := indexOf (windows e) window in
    if (idx <? 0)%Z then e
    else setWindows (window :: splice1 (windows e) idx) e.

(** ** Sequences of host notifications *)

(** The two notifications by which the host tells the engine about the
    windows it creates and destroys. *)
Inductive ClientOp : Set :=
| Manage (window : WinRef)
| Unmanage (window : WinRef).

Definition runClientOp (e : Engine) (op : ClientOp) : Engine :=
  match op with
  | Manage w => manageClient w e
  | Unmanage w => unmanageClient w e
  end.

Definition runClientOps (ops : list ClientOp) (e : Engine) : Engine :=
  foldl runClientOp e ops.

(** The host's side of the contract of [manageClient]: it is not called for
    a window the engine already manages. *)
Fixpoint managesOnlyNew (ops : list ClientOp) (e : Engine) : Prop :=
  match ops with
  | [] => True
  | op :: ops' =>
      match op with
      | Manage w => w ∉ windows e
      | Unmanage _ => True
      end ∧ managesOnlyNew ops' (runClientOp e op)
  end.

#[global] Instance managesOnlyNew_dec ops e : Decision (managesOnlyNew ops e).
Proof.
  revert e. induction ops as [|[w|w] ops IH]; intros e; simpl; apply _.
Defined.

(** ** Closed forms used in the proofs *)

(** What the first [forEach] of [arrangeScreen] does to one window record. *)
Definition normalize (cfg : Config) (win : Window.t) : Window.t :=
  let w1 := if decide (Window.state win = FreeTile)
            then Window.setState Tile win else win in
  if decide (Window.state w1 = Tile)
  then Window.setNoBorder (noTileBorder cfg) w1 else w1.

(** The heap after that [forEach] over [vis]. *)
Definition normalizedHeap (cfg : Config) (vis : list WinRef)
    (h : WinRef -> Window.t) (w : WinRef) : Window.t :=
  if decide (w ∈ vis) then normalize cfg (h w) else h w.

(** What a sequence of geometry assignments does to the record of [w]. *)
Definition assignTo (w : WinRef) (zs : list (WinRef * Rect.t)) (win : Window.t) : Window.t :=
  foldl (λ win' z, if decide (w = z.1) then Window.setGeometry z.2 win' else win') win zs.

(** Two tile descriptions that differ at most in the geometry the layout is
    about to overwrite. *)
Definition sameButGeometry (p q : WinRef * Window.t) : Prop :=
  p.1 = q.1 ∧ Window.setGeometry (Window.geometry q.2) p.2 = q.2.

(** A layout whose result is determined by the tiles it is handed and the
    two areas, and does not read back the geometries assigned before. *)
Definition deterministic (layout : Layout.t) : Prop :=
  ∀ ts ts' workingArea fullArea,
    Forall2 sameButGeometry ts ts' →
    Layout.apply layout ts workingArea fullArea
    = Layout.apply layout ts' workingArea fullArea.

(** The area [arrangeScreen] computes from the full area and the gaps, as
    the specification writes it. *)
Definition gapArea (cfg : Config) (full : Rect.t) : Rect.t :=
  Rect.mk (Rect.x full + screenGapLeft cfg)
          (Rect.y full + screenGapTop cfg)
          (Rect.width full - screenGapLeft cfg - screenGapRight cfg)
          (Rect.height full - screenGapTop cfg - screenGapBottom cfg).

(** The calls a method issued: what it appended to the log. *)
Definition issued (before after : Engine) : list Call :=
  drop (length (calls before)) (calls after).

(** The heap [arrangeScreen] leaves, from the heap [h1] its first [forEach]
    produced and the tiles. *)
Definition placed (env : Env) (ctx : Ctx) (tiles : list WinRef)
    (h1 : WinRef -> Window.t) (w : WinRef) : Window.t :=
  let fullArea := getWorkingArea env ctx in
  if maximizeSoleTile (CONFIG env) && bool_decide (length tiles = 1) then
    match arrGet tiles 0 with
    | Some t0 =>
        if decide (w = t0)
        then Window.setGeometry fullArea (Window.setNoBorder true (h1 w))
        else h1 w
    | None => h1 w
    end
  else if bool_decide (0 < length tiles) then
    assignTo w
      (zip tiles (Layout.apply (getCurrentLayout env ctx)
                    (map (λ r, (r, h1 r)) tiles)
                    (gapArea (CONFIG env) fullArea) fullArea))
      (h1 w)
  else h1 w.

(** The calls to [Layout.apply] that [arrangeScreen] makes. *)
Definition applyCalls (env : Env) (ctx : Ctx) (tiles : list WinRef) : list Call :=
  let fullArea := getWorkingArea env ctx in
  if maximizeSoleTile (CONFIG env) && bool_decide (length tiles = 1) then []
  else if bool_decide (0 < length tiles)
       then [LayoutApply tiles (gapArea (CONFIG env) fullArea) fullArea]
       else [].

(** Exchanges the references [x] and [y]. *)
Definition transpose (x y v : WinRef) : WinRef :=
  if decide (v = x) then y else if decide (v = y) then x else v.

(** The current window is one [moveTile] can find: there is none, or it is
    among the windows visible in its own context. *)
Definition currentIsVisible (e : Engine) : Prop :=
  match currentWindow e with
  | Some w => w ∈ visibleWindows (Window.context (heap e w)) e
  | None => True
  end.

(** ** Sample engines *)

Module Sample.

Definition origin : Rect.t := Rect.mk 0 0 0 0.

Definition screen : Rect.t := Rect.mk 0 0 1920 1080.

(** A window of context 0 that asks neither to be ignored nor to float. *)
Definition window (st : WindowState) (vis : Ctx -> bool) : Window.t :=
  Window.mk 0 st origin origin false false false vis.

Definition everywhere : Ctx -> bool := λ _, true.

Definition onlyOn (c : Ctx) : Ctx -> bool := λ c', bool_decide (c' = c).

(** Every tile takes the whole working area. *)
Definition monocle : Layout.t :=
  Layout.mk (λ ts workingArea _, map (λ _, workingArea) ts).

Definition config (sole : bool) : Config := mkConfig 10 20 30 40 sole true.

Definition env (sole : bool) (full : Rect.t) : Env :=
  mkEnv (config sole) (λ _, full) 0 [0] (λ _, monocle).

Definition engine (l : list WinRef) (h : WinRef -> Window.t) (cur : option WinRef) : Engine :=
  mkEngine l h cur [].

(** Windows 0, 1, 2, ... all tiled and visible everywhere. *)
Definition tiled : WinRef -> Window.t := λ _, window Tile everywhere.

(** Window 1 is free-tiled and shown on context 1 only; the others are
    tiled and visible everywhere. *)
Definition hiddenFreeTile : WinRef -> Window.t :=
  λ r, if decide (r = 1) then window FreeTile (onlyOn 1) else window Tile everywhere.

(** Window 1 is free-tiled, the others are tiled; all visible everywhere. *)
Definition freeTile : WinRef -> Window.t :=
  λ r, if decide (r = 1) then window FreeTile everywhere else window Tile everywhere.

(** Window 7 asks to be ignored; the others are ordinary windows.  All
    are visible everywhere. *)
Definition sevenIgnored : WinRef -> Window.t :=
  λ r, if decide (r = 7)
       then Window.mk 0 (HostState 0) origin origin false true false everywhere
       else window Float everywhere.

End Sample.

(** ** Further definitions *)

(** The context [moveFocus] works in: that of the current window, or the
    driver's current context when no window is current. *)
Definition focusContext (env : Env) (e : Engine) : Ctx :=
  match currentWindow e with
  | Some w => Window.context (heap e w)
  | None => getCurrentContext env
  end.

(** The calls [arrange] makes for one screen. *)
Definition screenCalls (env : Env) (e : Engine) (ctx : Ctx) : list Call :=
  applyCalls env ctx (tileWindows ctx e) ++ map WindowCommit (visibleWindows ctx e).

(** A window is among the visible windows of one of the contexts [l]. *)
Definition visibleOn (l : list Ctx) (e : Engine) (w : WinRef) : Prop :=
  Exists (λ ctx, w ∈ visibleWindows ctx e) l.

(** A window is visible on one of the driver's screens. *)
Definition onSomeScreen (env : Env) (e : Engine) (w : WinRef) : Prop :=
  visibleOn (screens env) e w.

(** What a pass writes into one window record: for each of the three
    fields the engine and the layouts write, the value written last, if
    any. *)
Record Overwrite : Set := mkOverwrite {
  newState : option WindowState;
  newNoBorder : option bool;
  newGeometry : option Rect.t
}.

Definition overwrite (o : Overwrite) (win : Window.t) : Window.t :=
  Window.mk (Window.context win)
    (default (Window.state win) (newState o))
    (default (Window.geometry win) (newGeometry o))
    (Window.actualGeometry win)
    (default (Window.noBorder win) (newNoBorder o))
    (Window.shouldIgnore win) (Window.shouldFloat win) (Window.visible win).

Definition noOverwrite : Overwrite := mkOverwrite None None None.

(** The later write wins. *)
Definition later {A} (first second : option A) : option A :=
  match second with Some _ => second | None => first end.

Definition thenOverwrite (first second : Overwrite) : Overwrite :=
  mkOverwrite (later (newState first) (newState second))
              (later (newNoBorder first) (newNoBorder second))
              (later (newGeometry first) (newGeometry second)).

(** The geometry a sequence of assignments leaves for [w], if it has one
    for it. *)
Definition lastAssigned (w : WinRef) (zs : list (WinRef * Rect.t)) : option Rect.t :=
  foldl (λ acc z, if decide (w = z.1) then Some z.2 else acc) None zs.

(** Two heaps that agree on what the host owns of each window and on which
    windows are tiles. *)
Definition sameHost (h h' : WinRef -> Window.t) : Prop :=
  ∀ w,
    Window.context (h w) = Window.context (h' w)
    ∧ Window.actualGeometry (h w) = Window.actualGeometry (h' w)
    ∧ Window.shouldIgnore (h w) = Window.shouldIgnore (h' w)
    ∧ Window.shouldFloat (h w) = Window.shouldFloat (h' w)
    ∧ Window.visible (h w) = Window.visible (h' w)
    ∧ ((Window.state (h w) = Tile ∨ Window.state (h w) = FreeTile)
       ↔ (Window.state (h' w) = Tile ∨ Window.state (h' w) = FreeTile)).

(** What [arrangeScreen] writes into the record of [w], read off the
    engine [e] it starts from. *)
Definition screenOverwrite (env : Env) (ctx : Ctx) (e : Engine) (w : WinRef) : Overwrite :=
  let tiles := tileWindows ctx e in
  let fullArea := getWorkingArea env ctx in
  let reset :=
    if decide (w ∈ visibleWindows ctx e ∧ tileable e w)
    then mkOverwrite (Some Tile) (Some (noTileBorder (CONFIG env))) None
    else noOverwrite in
  let place :=
    if maximizeSoleTile (CONFIG env) && bool_decide (length tiles = 1) then
      match arrGet tiles 0 with
      | Some t0 =>
          if decide (w = t0) then mkOverwrite None (Some true) (Some fullArea)
          else noOverwrite
      | None => noOverwrite
      end
    else if bool_decide (0 < length tiles) then
      mkOverwrite None None
        (lastAssigned w
           (zip tiles
              (Layout.apply (getCurrentLayout env ctx)
                 (map (λ r, (r, normalizedHeap (CONFIG env) (visibleWindows ctx e) (heap e) r))
                      tiles)
                 (gapArea (CONFIG env) fullArea) fullArea)))
    else noOverwrite in
  thenOverwrite reset place.

(** What [arrange] writes, screen after screen. *)
Fixpoint screensOverwrite (env : Env) (l : list Ctx) (e : Engine) (w : WinRef) : Overwrite :=
  match l with
  | [] => noOverwrite
  | ctx :: l' =>
      thenOverwrite (screenOverwrite env ctx e w)
                    (screensOverwrite env l' (arrangeScreen env ctx e) w)
  end.

Module UserInput.

(** Modelled from the spec: the [UserInput] enumeration is declared outside
    [engine.ts]; [handleUserInput] names these eight members, any other
    member is an [Other]. *)
Inductive t : Set :=
| Up
| Down
| ShiftUp
| ShiftDown
| SetMaster
| Float
| CycleLayout
| SetLayout
| Other (tag : nat).

End UserInput.

(** The payload of an input ([data?: any]); the engine only passes it on. *)
Definition Data := nat.

(** The layout registry's view of the layouts: the current layout of every
    context. *)
Definition Layouts := Ctx -> Layout.t.

(** Modelled from the spec: class [LayoutStore] and the optional
    capabilities of the layouts are declared outside [engine.ts].  A layout
    may offer [adjust(area, tiles, basis)] and [handleUserInput(input, data)],
    the latter answering whether it handled the input; both, like the
    registry's [cycleLayout(ctx)] and [setLayout(ctx, data)], act on the
    layouts only, which is all they are given. *)
Record LayoutStore : Type := mkLayoutStore {
  layoutAdjust :
    Layouts -> Ctx -> option (Rect.t -> list (WinRef * Window.t) -> WinRef -> Layouts);
  layoutHandleUserInput :
    Layouts -> Ctx -> option (UserInput.t -> option Data -> Layouts * bool);
  storeCycleLayout : Layouts -> Ctx -> Layouts;
  storeSetLayout : Layouts -> Ctx -> option Data -> Layouts
}.

Definition withLayouts (ls : Layouts) (env : Env) : Env :=
  mkEnv (CONFIG env) (getWorkingArea env) (getCurrentContext env) (screens env) ls.

(** [this.windows.filter((win) => (win.state === WindowState.Tile) && win.visible(ctx))] *)
Definition adjustTiles (ctx : Ctx) (e : Engine) : list WinRef :=
  filter (λ r, Window.state (heap e r) = Tile ∧ visibleIn ctx e r) (windows e).

(** [adjustLayout] changes nothing but the layouts. *)
Definition adjustLayout (store : LayoutStore) (env : Env) (basis : WinRef) (e : Engine) : Env :=
  let ctx := Window.context (heap e basis) in
  match layoutAdjust store (getCurrentLayout env) ctx with
  | Some adjust =>
      let area := getWorkingArea env ctx in
      let tiles := adjustTiles ctx e in
      withLayouts (adjust area (map (λ r, (r, heap e r)) tiles) basis) env
  | None => env
  end.

Definition cycleLayout (store : LayoutStore) (env : Env) : Env :=
  withLayouts (storeCycleLayout store (getCurrentLayout env) (getCurrentContext env)) env.

(** [window.state = (window.state === WindowState.Float) ? WindowState.Tile : WindowState.Float] *)
Definition toggleFloat (win : Window.t) : Window.t :=
  Window.setState (if decide (Window.state win = Float) then Tile else Float) win.

(** The [switch] of [handleUserInput]. *)
Definition dispatch (store : LayoutStore) (input : UserInput.t) (data : option Data)
    (env : Env) (e : Engine) : Env * Engine :=
  match input with
  | UserInput.Up => (env, moveFocus env (-1) e)
  | UserInput.Down => (env, moveFocus env 1 e)
  | UserInput.ShiftUp => (env, moveTile (-1) e)
  | UserInput.ShiftDown => (env, moveTile 1 e)
  | UserInput.SetMaster =>
      match currentWindow e with
      | Some window => (env, setMaster window e)
      | None => (env, e)
      end
  | UserInput.Float =>
      match currentWindow e with
      | Some window => (env, updWindow window toggleFloat e)
      | None => (env, e)
      end
  | UserInput.CycleLayout => (cycleLayout store env, e)
  | UserInput.SetLayout =>
      (withLayouts (storeSetLayout store (getCurrentLayout env)
                      (getCurrentContext env) data) env, e)
  | UserInput.Other _ => (env, e)
  end.

(** What the layout of the current context answers to the input: the
    layouts after it has seen the input, and whether it handled it. *)
Definition layoutAnswer (store : LayoutStore) (input : UserInput.t) (data : option Data)
    (env : Env) : Env * bool :=
  match layoutHandleUserInput store (getCurrentLayout env) (getCurrentContext env) with
  | Some handle =>
      let '(ls, overriden) := handle input data in (withLayouts ls env, overriden)
  | None => (env, false)
  end.

Definition handleUserInput (store : LayoutStore) (input : UserInput.t) (data : option Data)
    (env : Env) (e : Engine) : Env * Engine :=
  let '(env1, overriden) := layoutAnswer store input data env in
  if overriden then (env1, arrange env1 e)
  else
    let '(env2, e2) := dispatch store input data env1 e in
    (env2, arrange env2 e2).

(** A registry whose layouts offer neither [adjust] nor [handleUserInput]
    and whose [cycleLayout] and [setLayout] keep the layouts. *)
Definition plainStore : LayoutStore :=
  mkLayoutStore (λ _ _, None) (λ _ _, None) (λ ls _, ls) (λ ls _ _, ls).

(** * Properties *)

(** Closes a decidable goal about concrete data by evaluation. *)
Ltac by_evaluation := apply (bool_decide_unpack _); vm_compute; exact I.

(** ** Facts about the array operations *)

Section Arrays.

Implicit Types (l : list WinRef) (w v : WinRef) (i j k : nat).

Lemma indexOf_cases l w :
  (indexOf l w = (-1)%Z ∧ w ∉ l) ∨
  (∃ i, indexOf l w = Z.of_nat i ∧ l !! i = Some w ∧ w ∉ take i l).
Proof.
  unfold indexOf. destruct (list_find _ l) as [[i x]|] eqn:Hf.
  - right. apply list_find_Some in Hf as (Hi & -> & Hmin).
    exists i. do 2 (split; [done|]).
    intros Hin. apply list_elem_of_lookup in Hin as [j Hj].
    apply lookup_take_Some in Hj as [Hj Hlt]. by eapply Hmin.
  - left. split; [done|]. apply list_find_None in Hf.
    intros Hin. rewrite list.Forall_forall in Hf. by apply (Hf w).
Qed.

Lemma indexOf_first l w i :
  l !! i = Some w → w ∉ take i l → indexOf l w = Z.of_nat i.
Proof.
  intros Hi Hfirst. destruct (indexOf_cases l w) as [[_ Hno]|(j & -> & Hj & Hjfirst)].
  - exfalso. apply Hno. by eapply list_elem_of_lookup_2.
  - f_equal. destruct (Nat.lt_trichotomy i j) as [Hlt|[->|Hlt]]; [|done|].
    + exfalso. apply Hjfirst. eapply list_elem_of_lookup_2.
      apply lookup_take_Some. eauto.
    + exfalso. apply Hfirst. eapply list_elem_of_lookup_2.
      apply lookup_take_Some. eauto.
Qed.

Lemma indexOf_absent l w : w ∉ l → indexOf l w = (-1)%Z.
Proof.
  intros Hno. destruct (indexOf_cases l w) as [[-> _]|(j & _ & Hj & _)]; [done|].
  exfalso. apply Hno. by eapply list_elem_of_lookup_2.
Qed.

Lemma indexOf_lt_length l w : (-1 ≤ indexOf l w < Z.of_nat (length l))%Z.
Proof.
  destruct (indexOf_cases l w) as [[-> _]|(j & -> & Hj & _)]; [lia|].
  apply lookup_lt_Some in Hj. lia.
Qed.

Lemma indexOf_head l w : arrGet l 0 = Some w → indexOf l w = 0%Z.
Proof.
  unfold arrGet. simpl. intros H. apply (indexOf_first l w 0); [done|].
  rewrite take_0. apply not_elem_of_nil.
Qed.

End Arrays.

(** ** The calls a method issues *)

Lemma issued_same e : issued e e = [].
Proof. unfold issued. apply drop_all. Qed.

Lemma issued_app e e' cs : calls e' = calls e ++ cs → issued e e' = cs.
Proof. unfold issued. intros ->. apply drop_app_length. Qed.

Lemma issued_call c e : issued e (call c e) = [c].
Proof. by apply issued_app. Qed.

(** ** [manageClient] and [unmanageClient] *)

Lemma windows_manageClient w e :
  windows (manageClient w e)
  = if Window.shouldIgnore (heap e w) then windows e else windows e ++ [w].
Proof. unfold manageClient. by destruct (Window.shouldIgnore _). Qed.

Lemma windows_unmanageClient w e :
  windows (unmanageClient w e) `sublist_of` windows e.
Proof.
  unfold unmanageClient, splice1. destruct (0 <=? _)%Z; simpl; [|done].
  apply sublist_delete.
Qed.

Lemma runClientOp_NoDup e op :
  NoDup (windows e) →
  match op with Manage w => w ∉ windows e | Unmanage _ => True end →
  NoDup (windows (runClientOp e op)).
Proof.
  intros Hnd Hnew. destruct op as [w|w]; simpl.
  - rewrite windows_manageClient. destruct (Window.shouldIgnore _); [done|].
    apply NoDup_app. split_and!; [done| |apply NoDup_singleton].
    intros x Hx ->%list_elem_of_singleton. done.
  - eapply sublist_NoDup; [done|apply windows_unmanageClient].
Qed.

Lemma runClientOps_NoDup ops e :
  NoDup (windows e) → managesOnlyNew ops e →
  NoDup (windows (runClientOps ops e)).
Proof.
  revert e. induction ops as [|op ops IH]; intros e Hnd Hok; [done|].
  destruct Hok as [Hop Hrest]. apply IH; [|done].
  by apply runClientOp_NoDup.
Qed.

(** C2, as the code has it: [manageClient] appends without looking, so the
    list stays free of duplicates as long as the host keeps its side of the
    contract and never manages a window the engine already holds. From the
    empty list, after any such sequence of [manageClient] and
    [unmanageClient] calls, every window occurs at most once. *)
Theorem manage_unmanage_no_duplicates (ops : list ClientOp) (e : Engine) :
  windows e = [] →
  managesOnlyNew ops e →
  NoDup (windows (runClientOps ops e)).
Proof.
  intros Hempty Hok. apply runClientOps_NoDup; [|done].
  rewrite Hempty. apply NoDup_nil_2.
Qed.

Lemma manage_unmanage_no_duplicates_witness :
  NoDup (windows (runClientOps [Manage 1; Manage 2; Unmanage 1; Manage 1]
                               (Sample.engine [] Sample.tiled None))).
Proof.
  apply manage_unmanage_no_duplicates; [reflexivity|by_evaluation].
Defined.

(** C2 as stated fails: nothing in [manageClient] guards against a window
    that is already in the list; managing window 1 twice yields the list
    [1; 1]. *)
Lemma manage_twice_duplicates :
  ¬ (∀ (ops : list ClientOp) (e : Engine),
       windows e = [] → NoDup (windows (runClientOps ops e))).
Proof.
  intros H.
  specialize (H [Manage 1; Manage 1] (Sample.engine [] Sample.tiled None) eq_refl).
  vm_compute in H. apply NoDup_cons in H as [Hnotin _].
  apply Hnotin. apply list_elem_of_here.
Qed.


(** ** Cyclic indices *)

(** The index both [moveFocus] and [moveTile] compute, with JavaScript's
    remainder written as [Z.rem], is the non-negative residue. *)
Lemma cyclic_index (idx step num : Z) :
  (0 ≤ idx)%Z → (0 < num)%Z →
  Z.rem (idx + Z.rem step num + num) num = ((idx + step) `mod` num)%Z.
Proof.
  intros Hidx Hnum.
  assert (Hr : (- num < Z.rem step num < num)%Z).
  { pose proof (Z.rem_bound_abs step num). lia. }
  rewrite Z.rem_mod_nonneg by lia.
  pose proof (Z.quot_rem' step num) as Hq.
  replace (idx + Z.rem step num + num)%Z
    with (idx + step + (1 - step ÷ num) * num)%Z by lia.
  apply Z.mod_add. lia.
Qed.

(** Without a non-negative [idx] the result is still an index of the array:
    [indexOf] returns -1 at worst. *)
Lemma destIdx_in_range (idx step num : Z) :
  (-1 ≤ idx < num)%Z → (0 < num)%Z →
  (0 ≤ Z.rem (idx + Z.rem step num + num) num < num)%Z.
Proof.
  intros Hidx Hnum.
  assert (Hr : (- num < Z.rem step num < num)%Z).
  { pose proof (Z.rem_bound_abs step num). lia. }
  rewrite Z.rem_mod_nonneg by lia.
  apply Z.mod_pos_bound. lia.
Qed.

Lemma arrGet_nonneg {A} (l : list A) (i : Z) :
  (0 ≤ i)%Z → arrGet l i = l !! Z.to_nat i.
Proof. intros Hi. unfold arrGet. destruct (Z.ltb_spec i 0); [lia|done]. Qed.

(** The array reads [visibles[newIndex]] of [moveFocus] and
    [visibles[destIdx]] of [moveTile] never produce [undefined]. *)
Lemma destWin_defined (visibles : list WinRef) (w : WinRef) (step : Z) :
  0 < length visibles →
  let num := Z.of_nat (length visibles) in
  is_Some (arrGet visibles (Z.rem (indexOf visibles w + Z.rem step num + num) num)).
Proof.
  intros Hlen num.
  pose proof (indexOf_lt_length visibles w) as Hidx. fold num in Hidx.
  pose proof (destIdx_in_range (indexOf visibles w) step num Hidx ltac:(lia)) as Hdest.
  rewrite arrGet_nonneg by lia. apply lookup_lt_is_Some_2. lia.
Qed.

(** ** [moveFocus] *)

(** C4: with the current window at index [i] of the [N] windows visible in
    its context, [moveFocus S] for any non-zero integer [S] asks the driver
    to focus the visible window at index [(i + S) mod N], the non-negative
    residue; [moveFocus 0] changes nothing and asks nothing. *)
Theorem moveFocus_cyclic (env : Env) (e : Engine) (w : WinRef) (i : nat) (S : Z) :
  currentWindow e = Some w →
  indexOf (visibleWindows (Window.context (heap e w)) e) w = Z.of_nat i →
  S ≠ 0%Z →
  let visibles := visibleWindows (Window.context (heap e w)) e in
  let N := Z.of_nat (length visibles) in
  moveFocus env 0 e = e ∧
  (1 ≤ N)%Z ∧
  ∃ v, visibles !! Z.to_nat ((Z.of_nat i + S) `mod` N) = Some v ∧
       moveFocus env S e = setCurrentWindow (Some v) e ∧
       issued e (moveFocus env S e) = [SetCurrentWindow (Some v)].
Proof.
  intros Hcur Hidx HS visibles N.
  pose proof (indexOf_lt_length visibles w) as Hrange.
  fold visibles in Hidx. rewrite Hidx in Hrange. fold N in Hrange.
  assert (Hmod : (0 ≤ (Z.of_nat i + S) `mod` N < N)%Z) by (apply Z.mod_pos_bound; lia).
  split; [done|]. split; [lia|].
  destruct (lookup_lt_is_Some_2 visibles (Z.to_nat ((Z.of_nat i + S) `mod` N)))
    as [v Hv]; [lia|].
  exists v. split; [done|].
  assert (Hmove : moveFocus env S e = setCurrentWindow (Some v) e).
  { unfold moveFocus. rewrite decide_False by done. rewrite Hcur.
    fold visibles. rewrite decide_False by (subst N; lia).
    rewrite Hidx. destruct (Z.ltb_spec (Z.of_nat i) 0); [lia|].
    fold N. rewrite cyclic_index by lia.
    rewrite arrGet_nonneg by lia. by rewrite Hv. }
  split; [done|]. rewrite Hmove. apply issued_app. done.
Qed.

Lemma moveFocus_cyclic_witness :
  moveFocus (Sample.env true Sample.screen) (-1)
            (Sample.engine [10; 11; 12; 13] Sample.tiled (Some 10))
  = setCurrentWindow (Some 13) (Sample.engine [10; 11; 12; 13] Sample.tiled (Some 10)).
Proof.
  destruct (moveFocus_cyclic (Sample.env true Sample.screen)
              (Sample.engine [10; 11; 12; 13] Sample.tiled (Some 10)) 10 0 (-1))
    as (_ & _ & v & Hv & Hmove & _); [reflexivity|reflexivity|lia|].
  vm_compute in Hv. injection Hv as <-. exact Hmove.
Defined.

(** ** [setMaster] *)

Lemma setMaster_absent w e : w ∉ windows e → setMaster w e = e.
Proof.
  intros Hno. unfold setMaster. case_decide; [done|].
  rewrite indexOf_absent by done. done.
Qed.

Lemma setMaster_at k w e :
  0 < k → windows e !! k = Some w → w ∉ take k (windows e) →
  setMaster w e = setWindows (w :: delete k (windows e)) e.
Proof.
  intros Hk Hat Hfirst. unfold setMaster, splice1.
  rewrite decide_False.
  - rewrite (indexOf_first _ _ k) by done.
    destruct (Z.ltb_spec (Z.of_nat k) 0); [lia|]. by rewrite Nat2Z.id.
  - unfold arrGet. simpl. intros H0. apply Hfirst.
    eapply list_elem_of_lookup_2. apply lookup_take_Some. split; [exact H0|done].
Qed.

(** C5: [setMaster w], for [w] in the list at index [k > 0] (its first
    and, in a list without duplicates, only index), moves [w] to the front:
    [w] is at index 0, the windows of indices [0..k-1] are at [1..k] in their
    order, the windows after index [k] stay where they are.  When [w] is at
    index 0 already, or not in the list, nothing changes. *)
Theorem setMaster_moves_to_front (e : Engine) (w : WinRef) :
  let before := windows e in
  let after := windows (setMaster w e) in
  (before !! 0 = Some w → setMaster w e = e) ∧
  (w ∉ before → setMaster w e = e) ∧
  (∀ k, 0 < k → before !! k = Some w → w ∉ take k before →
     after !! 0 = Some w ∧
     (∀ j, j < k → after !! S j = before !! j) ∧
     (∀ j, k < j → after !! j = before !! j) ∧
     length after = length before).
Proof.
  intros before after. split_and!.
  - intros H0. unfold setMaster. rewrite decide_True; [done|]. exact H0.
  - apply setMaster_absent.
  - intros k Hk Hat Hfirst. subst after.
    rewrite (setMaster_at k) by done. simpl. fold before. split_and!.
    + done.
    + intros j Hj. by apply list_lookup_delete_lt.
    + intros j Hj. destruct j as [|j]; [lia|]. simpl.
      apply list_lookup_delete_ge. lia.
    + pose proof (lookup_lt_Some _ _ _ Hat) as Hlt.
      rewrite length_delete by eauto. lia.
Qed.

Lemma setMaster_moves_to_front_witness :
  windows (setMaster 12 (Sample.engine [10; 11; 12; 13] Sample.tiled None)) !! 0 = Some 12
  ∧ windows (setMaster 12 (Sample.engine [10; 11; 12; 13] Sample.tiled None)) !! 2 = Some 11.
Proof.
  destruct (setMaster_moves_to_front (Sample.engine [10; 11; 12; 13] Sample.tiled None) 12)
    as (_ & _ & Hmove).
  destruct (Hmove 2) as (H0 & Hlow & _ & _); [lia|reflexivity|by_evaluation|].
  split; [exact H0|]. etrans; [apply (Hlow 1); lia|reflexivity].
Defined.

(** ** [enforceClientSize] *)

Lemma Rect_equals_eq (a b : Rect.t) : Rect.equals a b = true ↔ a = b.
Proof.
  unfold Rect.equals. rewrite !andb_true_iff, !Z.eqb_eq.
  destruct a, b; simpl. split; [intros [[[-> ->] ->] ->]; done|].
  intros [= -> -> -> ->]. done.
Qed.

(** C9: [enforceClientSize w] schedules the deferred re-commit exactly
    when [w] is tiled and its observed geometry differs from its target
    geometry, and in no other case does anything; the deferred callback, in
    whatever state it finds the engine, commits [w] only if [w] is tiled
    then, and otherwise does nothing. *)
Theorem enforceClientSize_guarded (w : WinRef) (e : Engine) :
  (Window.state (heap e w) = Tile ∧
   Window.actualGeometry (heap e w) ≠ Window.geometry (heap e w) →
   enforceClientSize w e = call (KWinSetTimeout (RecommitIfTiled w) 10) e) ∧
  (¬ (Window.state (heap e w) = Tile ∧
      Window.actualGeometry (heap e w) ≠ Window.geometry (heap e w)) →
   enforceClientSize w e = e) ∧
  (∀ later : Engine,
     (Window.state (heap later w) ≠ Tile →
      runCallback (RecommitIfTiled w) later = later) ∧
     (Window.state (heap later w) = Tile →
      runCallback (RecommitIfTiled w) later = commit w later) ∧
     (WindowCommit w ∈ issued later (runCallback (RecommitIfTiled w) later) →
      Window.state (heap later w) = Tile)).
Proof.
  unfold enforceClientSize. split_and!.
  - intros [Hst Hne]. rewrite bool_decide_eq_true_2 by done. simpl.
    destruct (Rect.equals _ _) eqn:Heq; [|done].
    apply Rect_equals_eq in Heq. done.
  - intros Hnot. destruct (bool_decide_reflect (Window.state (heap e w) = Tile)) as [Hst|Hst];
      simpl; [|done].
    destruct (Rect.equals _ _) eqn:Heq; [done|]. exfalso. apply Hnot.
    split; [done|]. intros Hsame. apply Rect_equals_eq in Hsame. congruence.
  - intros later. simpl. split_and!.
    + intros Hst. by rewrite decide_False.
    + intros Hst. by rewrite decide_True.
    + case_decide; [done|]. rewrite issued_same. by intros ?%not_elem_of_nil.
Qed.

Lemma enforceClientSize_guarded_witness :
  enforceClientSize 1
    (updWindow 1 (Window.setGeometry Sample.screen) (Sample.engine [1] Sample.tiled None))
  = call (KWinSetTimeout (RecommitIfTiled 1) 10)
      (updWindow 1 (Window.setGeometry Sample.screen) (Sample.engine [1] Sample.tiled None))
  ∧ runCallback (RecommitIfTiled 1)
      (updWindow 1 (Window.setState Float) (Sample.engine [1] Sample.tiled None))
    = updWindow 1 (Window.setState Float) (Sample.engine [1] Sample.tiled None).
Proof.
  destruct (enforceClientSize_guarded 1
              (updWindow 1 (Window.setGeometry Sample.screen)
                 (Sample.engine [1] Sample.tiled None)))
    as (Hsched & _ & Hlater).
  split.
  - apply Hsched. split; [reflexivity|]. vm_compute. discriminate.
  - apply (Hlater (updWindow 1 (Window.setState Float) (Sample.engine [1] Sample.tiled None))).
    vm_compute. discriminate.
Defined.

(** ** Window records *)

Lemma normalize_idem cfg win : normalize cfg (normalize cfg win) = normalize cfg win.
Proof.
  unfold normalize. destruct win as [c st g ag nb si sf vis].
  destruct st; simpl; reflexivity.
Qed.

Lemma normalize_visible cfg win : Window.visible (normalize cfg win) = Window.visible win.
Proof. destruct win as [c st g ag nb si sf vis]. destruct st; reflexivity. Qed.

Lemma normalize_geometry cfg win : Window.geometry (normalize cfg win) = Window.geometry win.
Proof. destruct win as [c st g ag nb si sf vis]. destruct st; reflexivity. Qed.

Lemma normalize_state cfg win :
  Window.state (normalize cfg win)
  = if decide (Window.state win = FreeTile) then Tile else Window.state win.
Proof. destruct win as [c st g ag nb si sf vis]. destruct st; reflexivity. Qed.

Lemma normalize_Tile cfg win :
  Window.state win = Tile → normalize cfg win = Window.setNoBorder (noTileBorder cfg) win.
Proof.
  destruct win as [c st g ag nb si sf vis]. simpl. intros ->. reflexivity.
Qed.

Lemma normalize_setGeometry cfg g win :
  normalize cfg (Window.setGeometry g win) = Window.setGeometry g (normalize cfg win).
Proof. destruct win as [c st g0 ag nb si sf vis]. destruct st; reflexivity. Qed.

Lemma setGeometry_twice g g' win :
  Window.setGeometry g (Window.setGeometry g' win) = Window.setGeometry g win.
Proof. reflexivity. Qed.

Lemma setGeometry_same win : Window.setGeometry (Window.geometry win) win = win.
Proof. by destruct win. Qed.

(** ** Geometry assignments *)

Lemma assignTo_cons w z zs win :
  assignTo w (z :: zs) win
  = assignTo w zs (if decide (w = z.1) then Window.setGeometry z.2 win else win).
Proof. reflexivity. Qed.

Lemma assignTo_snoc w zs z win :
  assignTo w (zs ++ [z]) win
  = if decide (w = z.1) then Window.setGeometry z.2 (assignTo w zs win)
    else assignTo w zs win.
Proof. unfold assignTo. by rewrite foldl_app. Qed.

Lemma assignTo_absent w zs win : w ∉ zs.*1 → assignTo w zs win = win.
Proof.
  revert win. induction zs as [|z zs IH]; intros win Hno; [done|].
  rewrite fmap_cons in Hno. apply not_elem_of_cons in Hno as [Hne Hno].
  rewrite assignTo_cons, decide_False by done. by apply IH.
Qed.

(** An assignment touches the geometry and nothing else. *)
Lemma setGeometry_assignTo g w zs win :
  Window.setGeometry g (assignTo w zs win) = Window.setGeometry g win.
Proof.
  revert win. induction zs as [|z zs IH]; intros win; [done|].
  rewrite assignTo_cons, IH. case_decide; reflexivity.
Qed.

Lemma assignTo_setGeometry_same w zs win :
  Window.setGeometry (Window.geometry (assignTo w zs win)) win = assignTo w zs win.
Proof.
  rewrite <- (setGeometry_assignTo _ w zs win). apply setGeometry_same.
Qed.

Lemma assignTo_visible w zs win :
  Window.visible (assignTo w zs win) = Window.visible win.
Proof. by rewrite <- assignTo_setGeometry_same. Qed.

Lemma assignTo_state w zs win :
  Window.state (assignTo w zs win) = Window.state win.
Proof. by rewrite <- assignTo_setGeometry_same. Qed.

Lemma assignTo_noBorder w zs win :
  Window.noBorder (assignTo w zs win) = Window.noBorder win.
Proof. by rewrite <- assignTo_setGeometry_same. Qed.

Lemma assignTo_idem w zs win :
  assignTo w zs (assignTo w zs win) = assignTo w zs win.
Proof.
  induction zs as [|z zs IH] using rev_ind; [done|].
  rewrite !assignTo_snoc. case_decide; [|done].
  by rewrite !setGeometry_assignTo.
Qed.

Lemma normalize_assignTo cfg w zs win :
  normalize cfg (assignTo w zs win) = assignTo w zs (normalize cfg win).
Proof.
  induction zs as [|z zs IH] using rev_ind; [done|].
  rewrite !assignTo_snoc. case_decide; [|done].
  by rewrite normalize_setGeometry, IH.
Qed.

(** ** The phases of [arrangeScreen] *)

Lemma heap_updWindow r f e w :
  heap (updWindow r f e) w = if decide (w = r) then f (heap e w) else heap e w.
Proof.
  simpl. unfold insert, fn_insert.
  destruct (decide (r = w)) as [->|Hne].
  - by rewrite decide_True.
  - by rewrite decide_False.
Qed.

Lemma heap_resetWindow cfg e r w :
  heap (resetWindow cfg e r) w
  = if decide (w = r) then normalize cfg (heap e w) else heap e w.
Proof.
  unfold resetWindow.
  set (e1 := if decide (Window.state (heap e r) = FreeTile)
             then updWindow r (Window.setState Tile) e else e).
  assert (H1 : heap e1 r
               = if decide (Window.state (heap e r) = FreeTile)
                 then Window.setState Tile (heap e r) else heap e r).
  { subst e1. case_decide; [|done]. by rewrite heap_updWindow, decide_True. }
  assert (Hother : w ≠ r → heap e1 w = heap e w).
  { intros Hne. subst e1. case_decide; [|done]. by rewrite heap_updWindow, decide_False. }
  destruct (decide (w = r)) as [->|Hne].
  - unfold normalize. rewrite <- H1.
    destruct (decide (Window.state (heap e1 r) = Tile)); [|done].
    by rewrite heap_updWindow, decide_True.
  - destruct (decide (Window.state (heap e1 r) = Tile)); [|by apply Hother].
    rewrite heap_updWindow, decide_False by done. by apply Hother.
Qed.

Lemma frame_resetWindow cfg e r :
  windows (resetWindow cfg e r) = windows e
  ∧ calls (resetWindow cfg e r) = calls e
  ∧ currentWindow (resetWindow cfg e r) = currentWindow e.
Proof. unfold resetWindow. repeat case_decide; done. Qed.

Lemma heap_resetAll cfg l e w :
  heap (foldl (resetWindow cfg) e l) w = normalizedHeap cfg l (heap e) w.
Proof.
  unfold normalizedHeap. revert e. induction l as [|r l IH]; intros e; cbn [foldl].
  - destruct (decide (w ∈ [])) as [Hin|]; [|done]. by apply not_elem_of_nil in Hin.
  - rewrite IH, heap_resetWindow.
    destruct (decide (w ∈ r :: l)) as [Hin|Hnin].
    + apply elem_of_cons in Hin.
      destruct (decide (w = r)) as [->|Hne].
      * destruct (decide (r ∈ l)); [apply normalize_idem|done].
      * destruct Hin as [?|Hin]; [done|]. by rewrite decide_True.
    + apply not_elem_of_cons in Hnin as [Hne Hnin].
      by rewrite (decide_False (P := w ∈ l)), decide_False.
Qed.

Lemma frame_resetAll cfg l e :
  windows (foldl (resetWindow cfg) e l) = windows e
  ∧ calls (foldl (resetWindow cfg) e l) = calls e
  ∧ currentWindow (foldl (resetWindow cfg) e l) = currentWindow e.
Proof.
  revert e. induction l as [|r l IH]; intros e; simpl; [done|].
  destruct (IH (resetWindow cfg e r)) as (-> & -> & ->).
  apply frame_resetWindow.
Qed.

Lemma heap_assignGeometries zs e w :
  heap (assignGeometries zs e) w = assignTo w zs (heap e w).
Proof.
  unfold assignGeometries. revert e.
  induction zs as [|z zs IH]; intros e; [done|].
  rewrite assignTo_cons. cbn [foldl]. by rewrite IH, heap_updWindow.
Qed.

Lemma frame_assignGeometries zs e :
  windows (assignGeometries zs e) = windows e
  ∧ calls (assignGeometries zs e) = calls e
  ∧ currentWindow (assignGeometries zs e) = currentWindow e.
Proof.
  unfold assignGeometries. revert e.
  induction zs as [|z zs IH]; intros e; simpl; [done|].
  by destruct (IH (updWindow z.1 (Window.setGeometry z.2) e)) as (-> & -> & ->).
Qed.

Lemma commitAll l e :
  foldl (λ e' r, commit r e') e l
  = mkEngine (windows e) (heap e) (currentWindow e) (calls e ++ map WindowCommit l).
Proof.
  revert e. induction l as [|r l IH]; intros e; simpl.
  - rewrite app_nil_r. by destruct e.
  - rewrite IH. simpl. by rewrite <- app_assoc.
Qed.

Lemma gapArea_eq env ctx :
  Rect.mk
    (Rect.x (getWorkingArea env ctx) + screenGapLeft (CONFIG env))
    (Rect.y (getWorkingArea env ctx) + screenGapTop (CONFIG env))
    (Rect.width (getWorkingArea env ctx)
     - (screenGapLeft (CONFIG env) + screenGapRight (CONFIG env)))
    (Rect.height (getWorkingArea env ctx)
     - (screenGapTop (CONFIG env) + screenGapBottom (CONFIG env)))
  = gapArea (CONFIG env) (getWorkingArea env ctx).
Proof. unfold gapArea. f_equal; lia. Qed.

(** [arrangeScreen] in closed form: the list and the current window stay,
    the heap is [placed] over the normalized heap, and the calls are those
    to [Layout.apply] followed by one commit per visible window. *)
Lemma arrangeScreen_closed env ctx e :
  let e' := arrangeScreen env ctx e in
  windows e' = windows e
  ∧ currentWindow e' = currentWindow e
  ∧ calls e' = calls e ++ applyCalls env ctx (tileWindows ctx e)
                       ++ map WindowCommit (visibleWindows ctx e)
  ∧ ∀ w, heap e' w
         = placed env ctx (tileWindows ctx e)
             (normalizedHeap (CONFIG env) (visibleWindows ctx e) (heap e)) w.
Proof.
  unfold arrangeScreen. rewrite gapArea_eq.
  set (vis := visibleWindows ctx e). set (tiles := tileWindows ctx e).
  set (e1 := foldl (resetWindow (CONFIG env)) e vis).
  destruct (frame_resetAll (CONFIG env) vis e) as (Hw1 & Hc1 & Hcur1).
  fold e1 in Hw1, Hc1, Hcur1.
  assert (Hh1 : ∀ w, heap e1 w = normalizedHeap (CONFIG env) vis (heap e) w)
    by (intros w; apply heap_resetAll).
  rewrite commitAll. unfold placed, applyCalls. simpl.
  destruct (maximizeSoleTile (CONFIG env) && bool_decide (length tiles = 1)).
  - destruct (arrGet tiles 0) as [t0|]; simpl.
    + rewrite Hw1, Hc1, Hcur1. split_and!; [done|done|done|].
      intros w.
      change (heap (updWindow t0 (Window.setGeometry (getWorkingArea env ctx))
                      (updWindow t0 (Window.setNoBorder true) e1)) w = 
              if decide (w = t0)
              then Window.setGeometry (getWorkingArea env ctx)
                     (Window.setNoBorder true (normalizedHeap (CONFIG env) vis (heap e) w))
              else normalizedHeap (CONFIG env) vis (heap e) w).
      rewrite !heap_updWindow. case_decide; by rewrite Hh1.
    + rewrite Hw1, Hc1, Hcur1. done.
  - destruct (bool_decide (0 < length tiles)).
    + unfold layoutApply.
      destruct (frame_assignGeometries
        (zip tiles (Layout.apply (getCurrentLayout env ctx)
                      (map (λ r, (r, heap e1 r)) tiles)
                      (gapArea (CONFIG env) (getWorkingArea env ctx))
                      (getWorkingArea env ctx)))
        (call (LayoutApply tiles (gapArea (CONFIG env) (getWorkingArea env ctx))
                 (getWorkingArea env ctx)) e1)) as (-> & -> & ->).
      simpl. rewrite Hw1, Hc1, Hcur1, <- app_assoc. split_and!; [done|done|done|].
      intros w. rewrite heap_assignGeometries. simpl. rewrite Hh1.
      do 3 f_equal. apply map_ext. intros r. by rewrite Hh1.
    + rewrite Hw1, Hc1, Hcur1. done.
Qed.

(** ** What [arrangeScreen] preserves *)

Lemma elem_of_tileWindows ctx e t :
  t ∈ tileWindows ctx e ↔ tileable e t ∧ t ∈ visibleWindows ctx e.
Proof. unfold tileWindows. by rewrite list_elem_of_filter. Qed.

Lemma elem_of_visibleWindows ctx e r :
  r ∈ visibleWindows ctx e ↔ Window.visible (heap e r) ctx = true ∧ r ∈ windows e.
Proof. unfold visibleWindows. by rewrite list_elem_of_filter. Qed.

Lemma arrGet_0_elem_of {A} (l : list A) (x : A) : arrGet l 0 = Some x → x ∈ l.
Proof. unfold arrGet. simpl. apply list_elem_of_lookup_2. Qed.

Lemma normalizedHeap_ext cfg vis h h' w :
  (∀ r, h r = h' r) → normalizedHeap cfg vis h w = normalizedHeap cfg vis h' w.
Proof. intros Hext. unfold normalizedHeap. by rewrite Hext. Qed.

Lemma normalizedHeap_idem cfg vis h w :
  normalizedHeap cfg vis (normalizedHeap cfg vis h) w = normalizedHeap cfg vis h w.
Proof. unfold normalizedHeap. case_decide; [apply normalize_idem|done]. Qed.

Lemma placed_ext env ctx tiles h h' w :
  (∀ r, h r = h' r) → placed env ctx tiles h w = placed env ctx tiles h' w.
Proof.
  intros Hext. unfold placed. rewrite Hext.
  replace (map (λ r, (r, h r)) tiles) with (map (λ r, (r, h' r)) tiles); [done|].
  apply map_ext. intros r. by rewrite Hext.
Qed.

(** [placed] writes geometries and border flags only. *)
Lemma placed_state env ctx tiles h w :
  Window.state (placed env ctx tiles h w) = Window.state (h w).
Proof.
  unfold placed. repeat case_match; try done. apply assignTo_state.
Qed.

Lemma placed_visible env ctx tiles h w :
  Window.visible (placed env ctx tiles h w) = Window.visible (h w).
Proof.
  unfold placed. repeat case_match; try done. apply assignTo_visible.
Qed.

Lemma placed_outside env ctx tiles h w :
  w ∉ tiles → placed env ctx tiles h w = h w.
Proof.
  intros Hout. unfold placed. repeat case_match; try done.
  - subst. exfalso. apply Hout. by eapply arrGet_0_elem_of.
  - apply assignTo_absent. intros Hin. apply Hout.
    apply list_elem_of_fmap in Hin as ([t g] & -> & Hin).
    by eapply elem_of_zip_l.
Qed.

Lemma arrangeScreen_state env ctx e w :
  Window.state (heap (arrangeScreen env ctx e) w)
  = if decide (w ∈ visibleWindows ctx e ∧ Window.state (heap e w) = FreeTile)
    then Tile else Window.state (heap e w).
Proof.
  destruct (arrangeScreen_closed env ctx e) as (_ & _ & _ & ->).
  rewrite placed_state. unfold normalizedHeap.
  destruct (decide (w ∈ visibleWindows ctx e)) as [Hin|Hout].
  - rewrite normalize_state.
    destruct (decide (Window.state (heap e w) = FreeTile)).
    + by rewrite decide_True.
    + rewrite decide_False; [done|]. by intros [_ ?].
  - rewrite decide_False; [done|]. by intros [? _].
Qed.

Lemma arrangeScreen_visible env ctx e w :
  Window.visible (heap (arrangeScreen env ctx e) w) = Window.visible (heap e w).
Proof.
  destruct (arrangeScreen_closed env ctx e) as (_ & _ & _ & ->).
  rewrite placed_visible. unfold normalizedHeap.
  case_decide; [apply normalize_visible|done].
Qed.

Lemma visibleWindows_arrangeScreen env ctx ctx' e :
  visibleWindows ctx' (arrangeScreen env ctx e) = visibleWindows ctx' e.
Proof.
  unfold visibleWindows.
  destruct (arrangeScreen_closed env ctx e) as (-> & _).
  apply list_filter_iff. intros r. unfold visibleIn.
  by rewrite arrangeScreen_visible.
Qed.

Lemma tileable_arrangeScreen env ctx e r :
  tileable (arrangeScreen env ctx e) r ↔ tileable e r.
Proof.
  unfold tileable. rewrite arrangeScreen_state.
  case_decide as Hd; [|done].
  destruct Hd as [_ Hfree]. rewrite Hfree. split; intros _; [by right|by left].
Qed.

Lemma tileWindows_arrangeScreen env ctx e :
  tileWindows ctx (arrangeScreen env ctx e) = tileWindows ctx e.
Proof.
  unfold tileWindows. rewrite visibleWindows_arrangeScreen.
  apply list_filter_iff. intros r. apply tileable_arrangeScreen.
Qed.

(** The tiles are in state [Tile] once the first [forEach] has run. *)
Lemma tiles_normalized env ctx e t :
  t ∈ tileWindows ctx e →
  t ∈ visibleWindows ctx e
  ∧ Window.state (normalizedHeap (CONFIG env) (visibleWindows ctx e) (heap e) t) = Tile.
Proof.
  intros [Htile Hvis]%elem_of_tileWindows. split; [done|].
  unfold normalizedHeap. rewrite decide_True by done. rewrite normalize_state.
  case_decide; [done|]. destruct Htile; done.
Qed.

(** ** Running [arrangeScreen] again *)

Lemma sameButGeometry_map (f g : WinRef → Window.t) (l : list WinRef) :
  (∀ r, Window.setGeometry (Window.geometry (g r)) (f r) = g r) →
  Forall2 sameButGeometry (map (λ r, (r, f r)) l) (map (λ r, (r, g r)) l).
Proof.
  intros Hfg. induction l as [|t l IH]; simpl; constructor; [|exact IH].
  split; [done|]. apply Hfg.
Qed.

Lemma placed_stable env ctx vis tiles h1 :
  (∀ w, normalizedHeap (CONFIG env) vis h1 w = h1 w) →
  (∀ t, t ∈ tiles → t ∈ vis ∧ Window.state (h1 t) = Tile) →
  deterministic (getCurrentLayout env ctx) →
  ∀ w, placed env ctx tiles
         (normalizedHeap (CONFIG env) vis (placed env ctx tiles h1)) w
       = placed env ctx tiles h1 w.
Proof.
  intros Hnorm Htiles Hdet w. unfold placed at 1 3.
  destruct (maximizeSoleTile (CONFIG env) && bool_decide (length tiles = 1)) eqn:Hsole.
  - destruct (arrGet tiles 0) as [t0|] eqn:Ht0.
    + destruct (Htiles t0) as [Hvis Hst]; [by eapply arrGet_0_elem_of|].
      assert (Hp : ∀ r, placed env ctx tiles h1 r
                        = if decide (r = t0)
                          then Window.setGeometry (getWorkingArea env ctx)
                                 (Window.setNoBorder true (h1 r))
                          else h1 r).
      { intros r. unfold placed. by rewrite Hsole, Ht0. }
      unfold normalizedHeap at 1 2. rewrite Hp.
      destruct (decide (w = t0)) as [->|Hne].
      * rewrite decide_True by done. rewrite normalize_Tile by done.
        by destruct (h1 t0).
      * specialize (Hnorm w). unfold normalizedHeap in Hnorm. done.
    + rewrite (normalizedHeap_ext _ _ _ h1); [done|].
      intros r. unfold placed. by rewrite Hsole, Ht0.
  - destruct (bool_decide (0 < length tiles)) eqn:Hsome.
    + set (zs := zip tiles (Layout.apply (getCurrentLayout env ctx)
                   (map (λ r, (r, h1 r)) tiles)
                   (gapArea (CONFIG env) (getWorkingArea env ctx))
                   (getWorkingArea env ctx))).
      assert (Hp : ∀ r, placed env ctx tiles h1 r = assignTo r zs (h1 r)).
      { intros r. unfold placed. by rewrite Hsole, Hsome. }
      assert (Hh1' : ∀ r, normalizedHeap (CONFIG env) vis (placed env ctx tiles h1) r
                          = assignTo r zs (h1 r)).
      { intros r. unfold normalizedHeap. rewrite Hp.
        specialize (Hnorm r). unfold normalizedHeap in Hnorm.
        case_decide; [|done]. by rewrite normalize_assignTo, Hnorm. }
      replace (Layout.apply (getCurrentLayout env ctx)
                 (map (λ r, (r, normalizedHeap (CONFIG env) vis
                                  (placed env ctx tiles h1) r)) tiles)
                 (gapArea (CONFIG env) (getWorkingArea env ctx))
                 (getWorkingArea env ctx))
        with (Layout.apply (getCurrentLayout env ctx)
                 (map (λ r, (r, h1 r)) tiles)
                 (gapArea (CONFIG env) (getWorkingArea env ctx))
                 (getWorkingArea env ctx)).
      * fold zs. rewrite Hh1'. apply assignTo_idem.
      * apply Hdet, sameButGeometry_map. intros r.
        rewrite Hh1'. apply assignTo_setGeometry_same.
    + rewrite (normalizedHeap_ext _ _ _ h1); [done|].
      intros r. unfold placed. by rewrite Hsole, Hsome.
Qed.


(** ** [arrangeScreen] *)

Lemma issued_arrangeScreen env ctx e :
  issued e (arrangeScreen env ctx e)
  = applyCalls env ctx (tileWindows ctx e) ++ map WindowCommit (visibleWindows ctx e).
Proof.
  apply issued_app. by destruct (arrangeScreen_closed env ctx e) as (_ & _ & -> & _).
Qed.

Lemma monocle_deterministic : deterministic Sample.monocle.
Proof.
  intros ts ts' wa fa Hsame. simpl.
  induction Hsame as [|p q ts ts' _ _ IH]; simpl; [done|]. by rewrite IH.
Qed.

(** C1: with the engine state fixed and a deterministic layout, a second
    [arrangeScreen] for the same context, run right after the first, leaves
    every window with the geometry the first gave it. *)
Theorem arrangeScreen_idempotent (env : Env) (ctx : Ctx) (e : Engine) :
  deterministic (getCurrentLayout env ctx) →
  ∀ w : WinRef,
    Window.geometry (heap (arrangeScreen env ctx (arrangeScreen env ctx e)) w)
    = Window.geometry (heap (arrangeScreen env ctx e) w).
Proof.
  intros Hdet w. f_equal.
  (* the second pass sees the same visible windows and the same tiles *)
  destruct (arrangeScreen_closed env ctx (arrangeScreen env ctx e)) as (_ & _ & _ & ->).
  rewrite tileWindows_arrangeScreen, visibleWindows_arrangeScreen.
  (* and starts from the heap the first pass placed *)
  destruct (arrangeScreen_closed env ctx e) as (_ & _ & _ & Hh).
  rewrite Hh.
  erewrite placed_ext; [|intros r; apply normalizedHeap_ext; exact Hh].
  apply placed_stable; [|apply tiles_normalized|done].
  intros r. apply normalizedHeap_idem.
Qed.

Lemma arrangeScreen_idempotent_witness :
  Window.geometry
    (heap (arrangeScreen (Sample.env false Sample.screen) 0
             (arrangeScreen (Sample.env false Sample.screen) 0
                (Sample.engine [1; 2; 3] Sample.freeTile None))) 1)
  = Rect.mk 10 20 1880 1020.
Proof.
  rewrite (arrangeScreen_idempotent (Sample.env false Sample.screen) 0
             (Sample.engine [1; 2; 3] Sample.freeTile None)
             monocle_deterministic 1).
  reflexivity.
Defined.

(** C3: with sole-tile maximization on and exactly one tile among the
    windows visible in the context, [arrangeScreen] gives that window the
    full, pre-gap working area, makes it borderless, and does not call the
    layout's [apply]. *)
Theorem sole_tile_maximized (env : Env) (ctx : Ctx) (e : Engine) (w : WinRef) :
  maximizeSoleTile (CONFIG env) = true →
  tileWindows ctx e = [w] →
  let e' := arrangeScreen env ctx e in
  Window.geometry (heap e' w) = getWorkingArea env ctx
  ∧ Window.noBorder (heap e' w) = true
  ∧ ∀ ts wa fa, LayoutApply ts wa fa ∉ issued e e'.
Proof.
  intros Hsole Htiles e'. subst e'.
  destruct (arrangeScreen_closed env ctx e) as (_ & _ & _ & Hh).
  rewrite issued_arrangeScreen, Hh, Htiles.
  unfold placed, applyCalls. rewrite Hsole. simpl.
  rewrite decide_True by done. split_and!; [done|done|].
  intros ts wa fa Hin. apply list_elem_of_fmap in Hin as (r & Heq & _). done.
Qed.

Lemma sole_tile_maximized_witness :
  Window.geometry
    (heap (arrangeScreen (Sample.env true Sample.screen) 0
             (Sample.engine [1] Sample.freeTile None)) 1)
  = Sample.screen.
Proof.
  apply (sole_tile_maximized (Sample.env true Sample.screen) 0
           (Sample.engine [1] Sample.freeTile None) 1); reflexivity.
Defined.

(** C7: whenever [arrangeScreen] calls the layout's [apply], the working
    area it passes is (x+L, y+T, w-L-R, h-T-B) for the full area (x, y, w, h)
    and the gaps (L, T, R, B), whatever their values and signs, next to the
    full area itself; and it makes that call, once, whenever there are
    tiles and the sole-tile case does not apply. *)
Theorem gaps_applied (env : Env) (ctx : Ctx) (e : Engine) :
  let full := getWorkingArea env ctx in
  let effective :=
    Rect.mk (Rect.x full + screenGapLeft (CONFIG env))
            (Rect.y full + screenGapTop (CONFIG env))
            (Rect.width full - screenGapLeft (CONFIG env) - screenGapRight (CONFIG env))
            (Rect.height full - screenGapTop (CONFIG env) - screenGapBottom (CONFIG env)) in
  let e' := arrangeScreen env ctx e in
  (∀ ts wa fa, LayoutApply ts wa fa ∈ issued e e' →
     ts = tileWindows ctx e ∧ wa = effective ∧ fa = full)
  ∧ (tileWindows ctx e ≠ [] →
     ¬ (maximizeSoleTile (CONFIG env) = true ∧ length (tileWindows ctx e) = 1) →
     issued e e' = LayoutApply (tileWindows ctx e) effective full
                   :: map WindowCommit (visibleWindows ctx e)).
Proof.
  intros full effective e'. subst e'. rewrite issued_arrangeScreen.
  unfold applyCalls. fold full. change (gapArea (CONFIG env) full) with effective.
  split.
  - intros ts wa fa Hin. apply elem_of_app in Hin as [Hin|Hin].
    + repeat case_match; try by apply not_elem_of_nil in Hin.
      apply list_elem_of_singleton in Hin. by injection Hin as -> -> ->.
    + apply list_elem_of_fmap in Hin as (r & Heq & _). done.
  - intros Hsome Hnotsole.
    destruct (maximizeSoleTile (CONFIG env)) eqn:Hsole; simpl.
    + rewrite bool_decide_eq_false_2 by (intros Hone; by apply Hnotsole).
      rewrite bool_decide_eq_true_2; [done|].
      destruct (tileWindows ctx e); [done|simpl; lia].
    + rewrite bool_decide_eq_true_2; [done|].
      destruct (tileWindows ctx e); [done|simpl; lia].
Qed.

Lemma gaps_applied_witness :
  issued (Sample.engine [1; 2] Sample.tiled None)
         (arrangeScreen (Sample.env true (Rect.mk 5 5 30 50)) 0
            (Sample.engine [1; 2] Sample.tiled None))
  = [LayoutApply [1; 2] (Rect.mk 15 25 (-10) (-10)) (Rect.mk 5 5 30 50);
     WindowCommit 1; WindowCommit 2].
Proof.
  destruct (gaps_applied (Sample.env true (Rect.mk 5 5 30 50)) 0
              (Sample.engine [1; 2] Sample.tiled None)) as [_ Hcall].
  apply Hcall.
  - vm_compute. discriminate.
  - vm_compute. intros [_ Hone]. discriminate.
Defined.

(** C8, as the code has it: a free-tiled window of the list that is visible
    in the context is in state [Tile] after one [arrangeScreen] pass and
    still after the next; after the pass no window of the list that is
    visible in the context is free-tiled.  Windows not visible in the
    context are not looked at. *)
Theorem freeTile_promoted (env : Env) (ctx : Ctx) (e : Engine) (w : WinRef) :
  w ∈ windows e →
  Window.visible (heap e w) ctx = true →
  Window.state (heap e w) = FreeTile →
  let e' := arrangeScreen env ctx e in
  Window.state (heap e' w) = Tile
  ∧ Window.state (heap (arrangeScreen env ctx e') w) = Tile
  ∧ ∀ v, v ∈ windows e → Window.visible (heap e v) ctx = true →
         Window.state (heap e' v) ≠ FreeTile.
Proof.
  intros Hin Hvis Hfree e'. subst e'.
  assert (Hw : w ∈ visibleWindows ctx e) by by apply elem_of_visibleWindows.
  assert (Hfirst : Window.state (heap (arrangeScreen env ctx e) w) = Tile).
  { rewrite arrangeScreen_state. by rewrite decide_True. }
  split_and!.
  - done.
  - rewrite arrangeScreen_state, Hfirst. by case_decide.
  - intros v Hv Hvvis. rewrite arrangeScreen_state.
    case_decide as Hd; [done|]. intros Hstill. apply Hd.
    split; [by apply elem_of_visibleWindows|done].
Qed.

Lemma freeTile_promoted_witness :
  Window.state
    (heap (arrangeScreen (Sample.env false Sample.screen) 0
             (Sample.engine [1; 2] Sample.freeTile None)) 1)
  = Tile.
Proof.
  apply (freeTile_promoted (Sample.env false Sample.screen) 0
           (Sample.engine [1; 2] Sample.freeTile None) 1).
  - by_evaluation.
  - reflexivity.
  - reflexivity.
Defined.

(** C8 as stated fails: a free-tiled window of the list that is not visible
    in the context of the pass is still free-tiled after it. *)
Lemma hidden_freeTile_stays :
  ¬ (∀ (env : Env) (ctx : Ctx) (e : Engine) (w : WinRef),
       w ∈ windows e →
       Window.state (heap e w) = FreeTile →
       Window.state (heap (arrangeScreen env ctx e) w) = Tile).
Proof.
  intros H.
  assert (Hbad : Window.state
            (heap (arrangeScreen (Sample.env false Sample.screen) 0
                     (Sample.engine [1; 2] Sample.hiddenFreeTile None)) 1)
          = Tile).
  { apply H; [by_evaluation|reflexivity]. }
  vm_compute in Hbad. discriminate Hbad.
Qed.

(** C10: [arrangeScreen] leaves every window that is not visible in the
    context as it is, state, border flag and geometry (so that a hidden
    free-tiled window stays free-tiled), and does not commit it. *)
Theorem arrangeScreen_frame (env : Env) (ctx : Ctx) (e : Engine) (w : WinRef) :
  Window.visible (heap e w) ctx = false →
  let e' := arrangeScreen env ctx e in
  heap e' w = heap e w
  ∧ Window.state (heap e' w) = Window.state (heap e w)
  ∧ Window.noBorder (heap e' w) = Window.noBorder (heap e w)
  ∧ Window.geometry (heap e' w) = Window.geometry (heap e w)
  ∧ WindowCommit w ∉ issued e e'.
Proof.
  intros Hhidden e'. subst e'.
  assert (Hout : w ∉ visibleWindows ctx e).
  { intros [Hvis _]%elem_of_visibleWindows. congruence. }
  assert (Hsame : heap (arrangeScreen env ctx e) w = heap e w).
  { destruct (arrangeScreen_closed env ctx e) as (_ & _ & _ & ->).
    rewrite placed_outside.
    - unfold normalizedHeap. by rewrite decide_False.
    - intros [_ Hvis]%elem_of_tileWindows. done. }
  rewrite Hsame. split_and!; [done|done|done|done|].
  rewrite issued_arrangeScreen. intros Hin.
  apply elem_of_app in Hin as [Hin|Hin].
  - unfold applyCalls in Hin. repeat case_match; try by apply not_elem_of_nil in Hin.
    by apply list_elem_of_singleton in Hin.
  - apply list_elem_of_fmap in Hin as (r & [= ->] & Hr). done.
Qed.

Lemma arrangeScreen_frame_witness :
  Window.state
    (heap (arrangeScreen (Sample.env false Sample.screen) 0
             (Sample.engine [1; 2] Sample.hiddenFreeTile None)) 1)
  = FreeTile.
Proof.
  destruct (arrangeScreen_frame (Sample.env false Sample.screen) 0
              (Sample.engine [1; 2] Sample.hiddenFreeTile None) 1)
    as (_ & Hstate & _); [reflexivity|].
  rewrite Hstate. reflexivity.
Defined.

(** ** [moveTile] *)

Lemma transpose_involutive x y v : transpose x y (transpose x y v) = v.
Proof. unfold transpose. repeat case_decide; congruence. Qed.

#[global] Instance transpose_inj x y : Inj (=) (=) (transpose x y).
Proof.
  intros a b Hab.
  by rewrite <- (transpose_involutive x y a), Hab, transpose_involutive.
Qed.

Lemma fmap_transpose_twice x y (l : list WinRef) :
  transpose x y <$> (transpose x y <$> l) = l.
Proof.
  induction l as [|v l IH]; [done|].
  by rewrite !fmap_cons, transpose_involutive, IH.
Qed.

Lemma transpose_l x y : transpose x y x = y.
Proof. unfold transpose. by rewrite decide_True. Qed.

Lemma transpose_r x y : transpose x y y = x.
Proof. unfold transpose. case_decide; [done|]. by rewrite decide_True. Qed.

(** In a list without duplicates, overwriting the places of [x] and [y]
    with each other exchanges the two and moves nothing else. *)
Lemma swap_as_map (l : list WinRef) (a b : nat) (x y : WinRef) :
  NoDup l → l !! a = Some x → l !! b = Some y →
  <[a := y]> (<[b := x]> l) = transpose x y <$> l.
Proof.
  intros Hnd Ha Hb. apply list_eq. intros k. rewrite list_lookup_fmap.
  pose proof (lookup_lt_Some _ _ _ Ha) as Hla.
  pose proof (lookup_lt_Some _ _ _ Hb) as Hlb.
  destruct (decide (k = a)) as [->|Hka].
  - rewrite list_lookup_insert_eq by (by rewrite length_insert).
    by rewrite Ha; simpl; rewrite transpose_l.
  - rewrite list_lookup_insert_ne by done.
    destruct (decide (k = b)) as [->|Hkb].
    + rewrite list_lookup_insert_eq by done.
      by rewrite Hb; simpl; rewrite transpose_r.
    + rewrite list_lookup_insert_ne by done.
      destruct (l !! k) as [v|] eqn:Hk; simpl; [|done]. f_equal.
      unfold transpose. rewrite !decide_False; [done| |].
      * intros ->. apply Hkb. by eapply NoDup_lookup.
      * intros ->. apply Hka. by eapply NoDup_lookup.
Qed.

Lemma filter_fmap_stable (P : WinRef → Prop) `{∀ v, Decision (P v)}
    (f : WinRef → WinRef) (l : list WinRef) :
  (∀ v, P (f v) ↔ P v) → filter P (f <$> l) = f <$> filter P l.
Proof.
  intros Hf. induction l as [|v l IH]; [done|].
  rewrite fmap_cons, !filter_cons, IH.
  destruct (decide (P (f v))) as [Hyes|Hno], (decide (P v)) as [Hyes'|Hno'];
    try done; exfalso.
  - apply Hno'. by apply Hf.
  - apply Hno. by apply Hf.
Qed.

Lemma indexOf_NoDup l i x : NoDup l → l !! i = Some x → indexOf l x = Z.of_nat i.
Proof.
  intros Hnd Hi. apply indexOf_first; [done|].
  intros Hin. apply list_elem_of_lookup in Hin as [j Hj].
  apply lookup_take_Some in Hj as [Hj Hlt].
  assert (j = i) by by eapply NoDup_lookup. lia.
Qed.

Lemma arrSet_nat {A} (l : list A) (i : nat) (v : A) :
  arrSet l (Z.of_nat i) v = <[i := v]> l.
Proof.
  unfold arrSet. destruct (Z.ltb_spec (Z.of_nat i) 0); [lia|]. by rewrite Nat2Z.id.
Qed.

Lemma setWindows_same e : setWindows (windows e) e = e.
Proof. by destruct e. Qed.

(** One [moveTile] with the current window [w] at index [i] of at least two
    visible windows, in a list without duplicates: nothing when the
    destination is [i] itself, else [w] and the window at the destination
    change places. *)
Lemma moveTile_managed (S : Z) (e : Engine) (w : WinRef) (i : nat) :
  S ≠ 0%Z → NoDup (windows e) → currentWindow e = Some w →
  let vis := visibleWindows (Window.context (heap e w)) e in
  vis !! i = Some w → 2 ≤ length vis →
  let j := Z.to_nat ((Z.of_nat i + S) `mod` Z.of_nat (length vis)) in
  (j = i → moveTile S e = e)
  ∧ (j ≠ i → ∃ d, vis !! j = Some d ∧ d ≠ w
             ∧ moveTile S e = setWindows (transpose w d <$> windows e) e).
Proof.
  intros HS Hnd Hcur vis Hi Hlen j.
  assert (Hndv : NoDup vis) by by apply NoDup_filter.
  assert (Hmod : (0 ≤ (Z.of_nat i + S) `mod` Z.of_nat (length vis)
                  < Z.of_nat (length vis))%Z) by (apply Z.mod_pos_bound; lia).
  assert (Hstep : moveTile S e
    = if decide (j = i) then e
      else match vis !! j with
           | Some destWin =>
               setWindows
                 (arrSet (arrSet (windows e) (indexOf (windows e) destWin) w)
                    (indexOf (windows e) w) destWin) e
           | None => e
           end).
  { unfold moveTile. rewrite decide_False by done. rewrite Hcur. fold vis.
    rewrite bool_decide_eq_false_2 by lia.
    rewrite (indexOf_NoDup vis i w) by done.
    rewrite cyclic_index by lia.
    destruct (decide (j = i)) as [Hji|Hji].
    - rewrite decide_True; [done|]. subst j. lia.
    - rewrite decide_False by (subst j; lia).
      by rewrite arrGet_nonneg by lia. }
  rewrite Hstep. split.
  - intros Hji. by rewrite decide_True.
  - intros Hji. rewrite decide_False by done.
    destruct (lookup_lt_is_Some_2 vis j) as [d Hd]; [subst j; lia|].
    exists d. rewrite Hd. split; [done|].
    assert (Hdw : d ≠ w).
    { intros ->. apply Hji. by eapply NoDup_lookup. }
    split; [done|].
    assert (Hwl : w ∈ windows e).
    { eapply list_elem_of_lookup_2 in Hi. by apply elem_of_visibleWindows in Hi as [_ ?]. }
    assert (Hdl : d ∈ windows e).
    { eapply list_elem_of_lookup_2 in Hd. by apply elem_of_visibleWindows in Hd as [_ ?]. }
    apply list_elem_of_lookup in Hwl as [a Ha].
    apply list_elem_of_lookup in Hdl as [b Hb].
    rewrite (indexOf_NoDup _ a w), (indexOf_NoDup _ b d) by done.
    rewrite !arrSet_nat. f_equal. by apply swap_as_map.
Qed.

(** X9: where the guard of [moveFocus] would hold (the list has no
    duplicates and the current window, if any, is among the visible ones),
    [moveTile S] followed by [moveTile (-S)] restores the engine. *)
Lemma moveTile_round_trip (S : Z) (e : Engine) :
  NoDup (windows e) → currentIsVisible e →
  moveTile (- S) (moveTile S e) = e.
Proof.
  intros Hnd Hcurvis. unfold currentIsVisible in Hcurvis.
  destruct (decide (S = 0%Z)) as [->|HS]; [done|].
  destruct (currentWindow e) as [w|] eqn:Hcur.
  2:{ assert (Hnone : ∀ s, moveTile s e = e).
      { intros s. unfold moveTile. rewrite Hcur. by case_decide. }
      by rewrite !Hnone. }
  set (vis := visibleWindows (Window.context (heap e w)) e) in *.
  destruct (decide (length vis < 2)) as [Hfew|Hmany].
  { assert (Hnone : ∀ s, moveTile s e = e).
    { intros s. unfold moveTile. rewrite Hcur. fold vis.
      rewrite bool_decide_eq_true_2 by done. by case_decide. }
    by rewrite !Hnone. }
  apply list_elem_of_lookup in Hcurvis as [i Hi].
  pose proof (lookup_lt_Some _ _ _ Hi) as Hilt.
  set (n := Z.of_nat (length vis)).
  assert (Hmod : (0 ≤ (Z.of_nat i + S) `mod` n < n)%Z) by (apply Z.mod_pos_bound; lia).
  destruct (moveTile_managed S e w i) as [Hstay Hswap];
    [done|done|done|done|fold vis; lia|].
  fold vis in Hstay, Hswap. fold n in Hstay, Hswap.
  destruct (decide (Z.to_nat ((Z.of_nat i + S) `mod` n) = i)) as [Hji|Hji].
  - rewrite (Hstay Hji).
    destruct (moveTile_managed (- S) e w i) as [Hstay' _];
      [lia|done|done|done|fold vis; lia|].
    apply Hstay'. fold vis n.
    assert (Hback : ((Z.of_nat i + - S) `mod` n = Z.of_nat i)%Z).
    { assert (Hrem : ((Z.of_nat i + S) `mod` n = Z.of_nat i)%Z) by lia.
      pose proof (Z.div_mod (Z.of_nat i + S) n ltac:(lia)) as Hdm.
      rewrite Hrem in Hdm.
      replace (Z.of_nat i + - S)%Z
        with (Z.of_nat i + (- ((Z.of_nat i + S) `div` n)) * n)%Z by lia.
      rewrite Z.mod_add by lia. apply Z.mod_small. lia. }
    rewrite Hback. lia.
  - destruct (Hswap Hji) as (d & Hd & Hdw & Hmove).
    set (j := Z.to_nat ((Z.of_nat i + S) `mod` n)) in *.
    set (e1 := setWindows (transpose w d <$> windows e) e).
    rewrite Hmove. fold e1.
    assert (Hvis1 : visibleWindows (Window.context (heap e1 w)) e1
                    = transpose w d <$> vis).
    { unfold visibleWindows. simpl. apply filter_fmap_stable.
      intros v. unfold visibleIn. simpl.
      assert (Hw : Window.visible (heap e w) (Window.context (heap e w)) = true).
      { eapply list_elem_of_lookup_2 in Hi. by apply elem_of_visibleWindows in Hi as [? _]. }
      assert (Hdv : Window.visible (heap e d) (Window.context (heap e w)) = true).
      { eapply list_elem_of_lookup_2 in Hd. by apply elem_of_visibleWindows in Hd as [? _]. }
      unfold transpose. repeat case_decide; subst; by rewrite ?Hw, ?Hdv. }
    destruct (moveTile_managed (- S) e1 w j) as [_ Hswap'].
    + lia.
    + simpl. apply (NoDup_fmap_2 (transpose w d)). exact Hnd.
    + done.
    + rewrite Hvis1, list_lookup_fmap, Hd. simpl. by rewrite transpose_r.
    + rewrite Hvis1, length_fmap. lia.
    + rewrite Hvis1, length_fmap in Hswap'. fold n in Hswap'.
      assert (Hback : ((Z.of_nat j + - S) `mod` n = Z.of_nat i)%Z).
      { subst j. rewrite Z2Nat.id by lia.
        rewrite Z.add_opp_r, Zminus_mod_idemp_l.
        replace (Z.of_nat i + S - S)%Z with (Z.of_nat i) by lia.
        apply Z.mod_small. lia. }
      rewrite Hback, Nat2Z.id in Hswap'.
      destruct Hswap' as (d1 & Hd1 & _ & Hmove'); [done|].
      rewrite list_lookup_fmap, Hi in Hd1. simpl in Hd1.
      rewrite transpose_l in Hd1. injection Hd1 as <-.
      rewrite Hmove'. simpl. unfold setWindows. simpl.
      rewrite fmap_transpose_twice. by destruct e.
Qed.

(** C6 does not hold of the code: [moveTile] lacks the guard [moveFocus]
    has for a current window that is not among the visible windows
    ([idx < 0]).  The host manages windows 1 and 2 and offers window 7,
    which [manageClient] ignores; with window 7 current, [moveTile 1]
    overwrites window 1 in the list with window 7, and [moveTile (-1)] then
    yields [2; 7] instead of the original [1; 2]. *)
Theorem moveTile_unmanaged_current :
  let e := runClientOps [Manage 1; Manage 2; Manage 7]
             (Sample.engine [] Sample.sevenIgnored (Some 7)) in
  windows e = [1; 2]
  ∧ currentWindow e = Some 7
  ∧ windows (moveTile 1 e) = [7; 2]
  ∧ currentWindow (moveTile 1 e) = Some 7
  ∧ windows (moveTile (-1) (moveTile 1 e)) = [2; 7].
Proof.
  intros e.
  assert (Hsetup : windows e = [1; 2]) by reflexivity.
  assert (Hfirst : windows (moveTile 1 e) = [7; 2]) by (vm_compute; reflexivity).
  assert (Hback : windows (moveTile (-1) (moveTile 1 e)) = [2; 7])
    by (vm_compute; reflexivity).
  split_and!; [exact Hsetup|reflexivity|exact Hfirst|reflexivity|exact Hback].
Qed.

(** * Further properties *)

(** ** Further properties of the window list *)

Lemma filter_all {A} (P : A → Prop) `{∀ x, Decision (P x)} (l : list A) :
  (∀ x, x ∈ l → P x) → filter P l = l.
Proof.
  induction l as [|x l IH]; intros Hall; [done|].
  rewrite filter_cons_True by (apply Hall, list_elem_of_here).
  rewrite IH; [done|]. intros y Hy. apply Hall. by apply list_elem_of_further.
Qed.

(** Removing the first [w] of a list that holds only one leaves the list
    without [w]. *)
Lemma delete_first_filter (l : list WinRef) (i : nat) (w : WinRef) :
  NoDup l → l !! i = Some w → delete i l = filter (λ v, v ≠ w) l.
Proof.
  intros Hnd Hi.
  rewrite <- (take_drop_middle l i w Hi) in Hnd |- * at 2.
  apply NoDup_app in Hnd as (_ & Hleft & Hright).
  apply NoDup_cons in Hright as [Hright _].
  rewrite filter_app, filter_cons_False by (intros Hne; by apply Hne).
  rewrite !filter_all.
  - apply delete_take_drop.
  - intros x Hx ->. done.
  - intros x Hx ->. apply (Hleft w Hx). apply list_elem_of_here.
Qed.

Lemma unmanageClient_at i w e :
  windows e !! i = Some w → w ∉ take i (windows e) →
  unmanageClient w e = setWindows (delete i (windows e)) e.
Proof.
  intros Hi Hfirst. unfold unmanageClient, splice1.
  rewrite (indexOf_first _ _ i) by done.
  destruct (Z.leb_spec 0 (Z.of_nat i)); [|lia]. by rewrite Nat2Z.id.
Qed.

Lemma unmanageClient_absent w e : w ∉ windows e → unmanageClient w e = e.
Proof.
  intros Hno. unfold unmanageClient. by rewrite indexOf_absent.
Qed.

(** X1: managing a window the engine does not hold and unmanaging it again
    leaves the list as it was, whether the window was taken or ignored. *)
Theorem manage_then_unmanage (w : WinRef) (e : Engine) :
  w ∉ windows e →
  windows (unmanageClient w (manageClient w e)) = windows e.
Proof.
  intros Hnew.
  assert (Hl : windows (manageClient w e) = windows e
               ∨ windows (manageClient w e) = windows e ++ [w]).
  { rewrite windows_manageClient. destruct (Window.shouldIgnore _); auto. }
  destruct Hl as [Hl|Hl].
  - rewrite unmanageClient_absent by (by rewrite Hl). done.
  - rewrite (unmanageClient_at (length (windows e))).
    + simpl. rewrite Hl. change (windows e ++ [w]) with (windows e ++ w :: []).
      rewrite delete_middle. apply app_nil_r.
    + rewrite Hl. by apply list_lookup_middle.
    + by rewrite Hl, take_app_length.
Qed.

Lemma manage_then_unmanage_witness :
  windows (unmanageClient 3 (manageClient 3 (Sample.engine [1; 2] Sample.tiled None)))
  = [1; 2].
Proof.
  apply (manage_then_unmanage 3 (Sample.engine [1; 2] Sample.tiled None)).
  by_evaluation.
Defined.

(** X2: [unmanageClient] touches the list only: it drops the first
    occurrence of the window, so that in a list without duplicates the
    window is gone and the others keep their order; for a window that is
    not in the list it changes nothing. *)
Theorem unmanageClient_removes (w : WinRef) (e : Engine) :
  (w ∉ windows e → unmanageClient w e = e)
  ∧ (NoDup (windows e) →
     unmanageClient w e = setWindows (filter (λ v, v ≠ w) (windows e)) e
     ∧ w ∉ windows (unmanageClient w e)).
Proof.
  split; [apply unmanageClient_absent|].
  intros Hnd.
  assert (Heq : unmanageClient w e
                = setWindows (filter (λ v, v ≠ w) (windows e)) e).
  { destruct (indexOf_cases (windows e) w) as [[_ Hno]|(i & _ & Hi & Hfirst)].
    - rewrite unmanageClient_absent by done.
      rewrite filter_all; [by destruct e|]. intros x Hx ->. done.
    - rewrite (unmanageClient_at i) by done. by rewrite (delete_first_filter _ i w). }
  split; [done|]. rewrite Heq. simpl.
  intros [Hne _]%list_elem_of_filter. done.
Qed.

Lemma unmanageClient_removes_witness :
  windows (unmanageClient 2 (Sample.engine [1; 2; 3] Sample.tiled None)) = [1; 3].
Proof.
  destruct (unmanageClient_removes 2 (Sample.engine [1; 2; 3] Sample.tiled None))
    as [_ Hrem].
  destruct Hrem as [Heq _]; [by_evaluation|].
  rewrite Heq. reflexivity.
Defined.

(** ** Further properties of [setMaster] *)

Lemma setMaster_cases w e :
  setMaster w e = e
  ∨ ∃ i, windows e !! i = Some w
         ∧ setMaster w e = setWindows (w :: delete i (windows e)) e.
Proof.
  unfold setMaster, splice1. case_decide; [by left|].
  destruct (indexOf_cases (windows e) w) as [[-> _]|(i & -> & Hi & _)]; [by left|].
  right. exists i. destruct (Z.ltb_spec (Z.of_nat i) 0); [lia|]. by rewrite Nat2Z.id.
Qed.

(** X3: whatever the list, [setMaster] only reorders it: the result is a
    permutation of the list, and the windows other than the promoted one
    keep their relative order. *)
Theorem setMaster_reorders (w : WinRef) (e : Engine) :
  windows (setMaster w e) ≡ₚ windows e
  ∧ filter (λ v, v ≠ w) (windows (setMaster w e)) = filter (λ v, v ≠ w) (windows e).
Proof.
  destruct (setMaster_cases w e) as [->|(i & Hi & ->)]; [done|]. simpl. split.
  - symmetry. by apply delete_Permutation.
  - rewrite filter_cons_False by (intros Hne; by apply Hne).
    rewrite <- (take_drop_middle (windows e) i w Hi) at 2.
    rewrite delete_take_drop, !filter_app.
    by rewrite (filter_cons_False _ w) by (intros Hne; by apply Hne).
Qed.

(** X4: a managed window is at index 0 after [setMaster], also in a list
    with duplicates, and promoting it a second time changes nothing. *)
Theorem setMaster_idempotent (w : WinRef) (e : Engine) :
  (w ∈ windows e → windows (setMaster w e) !! 0 = Some w)
  ∧ setMaster w (setMaster w e) = setMaster w e.
Proof.
  assert (Hhead : ∀ e', windows e' !! 0 = Some w → setMaster w e' = e').
  { intros e' H0. unfold setMaster. by rewrite decide_True. }
  split.
  - intros Hin. unfold setMaster, splice1.
    case_decide as H0; [exact H0|].
    destruct (indexOf_cases (windows e) w) as [[_ Hno]|(i & -> & _)]; [done|].
    by destruct (Z.ltb_spec (Z.of_nat i) 0); [lia|].
  - destruct (setMaster_cases w e) as [Hsame|(i & _ & Hmove)].
    + rewrite Hsame. exact Hsame.
    + rewrite Hmove. by apply Hhead.
Qed.

Lemma setMaster_idempotent_witness :
  windows (setMaster 3 (Sample.engine [1; 3; 2; 3] Sample.tiled None)) !! 0 = Some 3.
Proof.
  apply (setMaster_idempotent 3 (Sample.engine [1; 3; 2; 3] Sample.tiled None)).
  by_evaluation.
Defined.

(** ** Further properties of [moveFocus] *)

Lemma arrGet_0_head {A} (l : list A) : arrGet l 0 = head l.
Proof. by destruct l. Qed.

(** [moveFocus] with a non-zero step and something visible, by the place of
    the current window. *)
Lemma moveFocus_step env S e :
  S ≠ 0%Z →
  let visibles := visibleWindows (focusContext env e) e in
  visibles ≠ [] →
  moveFocus env S e
  = setCurrentWindow
      (match currentWindow e with
       | Some w =>
           if (indexOf visibles w <? 0)%Z then head visibles
           else arrGet visibles
                  (Z.rem (indexOf visibles w
                          + Z.rem S (Z.of_nat (length visibles))
                          + Z.of_nat (length visibles))
                         (Z.of_nat (length visibles)))
       | None => head visibles
       end) e.
Proof.
  intros HS visibles Hsome. unfold moveFocus. rewrite decide_False by done.
  unfold focusContext in visibles. fold visibles.
  rewrite decide_False by (by destruct visibles).
  rewrite arrGet_0_head. destruct (currentWindow e); [|done].
  by destruct (_ <? 0)%Z.
Qed.

Lemma moveFocus_nothing env S e :
  S = 0%Z ∨ visibleWindows (focusContext env e) e = [] → moveFocus env S e = e.
Proof.
  intros [->|Hnone]; [done|]. unfold moveFocus. case_decide; [done|].
  unfold focusContext in Hnone. by rewrite Hnone.
Qed.

(** With distinct visible windows and the current window at index [i]. *)
Lemma moveFocus_at env S e w i :
  S ≠ 0%Z → currentWindow e = Some w →
  let visibles := visibleWindows (Window.context (heap e w)) e in
  NoDup visibles → visibles !! i = Some w →
  moveFocus env S e
  = setCurrentWindow
      (visibles !! Z.to_nat ((Z.of_nat i + S) `mod` Z.of_nat (length visibles))) e.
Proof.
  intros HS Hcur visibles Hnd Hi.
  pose proof (lookup_lt_Some _ _ _ Hi) as Hlt.
  assert (Hfc : focusContext env e = Window.context (heap e w))
    by (unfold focusContext; by rewrite Hcur).
  rewrite moveFocus_step; [|done|rewrite Hfc; fold visibles; by destruct visibles].
  rewrite Hfc, Hcur. fold visibles.
  rewrite (indexOf_NoDup visibles i w) by done.
  destruct (Z.ltb_spec (Z.of_nat i) 0); [lia|].
  rewrite cyclic_index by lia. rewrite arrGet_nonneg; [done|].
  apply Z.mod_pos_bound. lia.
Qed.

(** X5: [moveFocus] never hands the driver anything but a window that is
    visible in the context it works in: with step 0 or nothing visible it
    does nothing at all, and otherwise it asks for the focus on one of the
    visible windows. *)
Theorem moveFocus_targets_visible (env : Env) (S : Z) (e : Engine) :
  let visibles := visibleWindows (focusContext env e) e in
  (S = 0%Z ∨ visibles = [] → moveFocus env S e = e)
  ∧ (S ≠ 0%Z → visibles ≠ [] →
     ∃ v, v ∈ visibles ∧ moveFocus env S e = setCurrentWindow (Some v) e).
Proof.
  intros visibles. split; [apply moveFocus_nothing|].
  intros HS Hsome. rewrite moveFocus_step by done. fold visibles.
    assert (Hhead : ∃ v, v ∈ visibles ∧ head visibles = Some v).
    { destruct visibles as [|v l]; [done|]. exists v. split; [apply list_elem_of_here|done]. }
    destruct (currentWindow e) as [w|].
    + destruct (Z.ltb_spec (indexOf visibles w) 0).
      * destruct Hhead as (v & Hv & ->). eauto.
      * destruct (destWin_defined visibles w S) as [v Hv].
        { destruct visibles; [done|simpl; lia]. }
        rewrite Hv. exists v. split; [|done].
        unfold arrGet in Hv. destruct (_ <? 0)%Z; [done|].
        by eapply list_elem_of_lookup_2.
    + destruct Hhead as (v & Hv & ->). eauto.
Qed.

Lemma moveFocus_targets_visible_witness :
  ∃ v, v ∈ [1; 2; 3]
       ∧ moveFocus (Sample.env true Sample.screen) 5
           (Sample.engine [1; 2; 3] Sample.tiled (Some 2))
         = setCurrentWindow (Some v) (Sample.engine [1; 2; 3] Sample.tiled (Some 2)).
Proof.
  destruct (moveFocus_targets_visible (Sample.env true Sample.screen) 5
              (Sample.engine [1; 2; 3] Sample.tiled (Some 2))) as [_ Hgo].
  apply Hgo; [lia|vm_compute; discriminate].
Defined.

(** X6: with no current window, or with a current window that is not among
    the visible windows of its context, [moveFocus] with any non-zero step
    focuses the first visible window. *)
Theorem moveFocus_unmanaged_focuses_first (env : Env) (S : Z) (e : Engine) (v : WinRef) :
  S ≠ 0%Z →
  match currentWindow e with
  | Some w => w ∉ visibleWindows (focusContext env e) e
  | None => True
  end →
  head (visibleWindows (focusContext env e) e) = Some v →
  moveFocus env S e = setCurrentWindow (Some v) e.
Proof.
  intros HS Hout Hhead. rewrite moveFocus_step; [|done|by intros Hnil; rewrite Hnil in Hhead].
  destruct (currentWindow e) as [w|]; [|by rewrite Hhead].
  rewrite indexOf_absent by done. simpl. by rewrite Hhead.
Qed.

Lemma moveFocus_unmanaged_focuses_first_witness :
  moveFocus (Sample.env true Sample.screen) (-1)
    (Sample.engine [1; 2; 3] Sample.tiled (Some 7))
  = setCurrentWindow (Some 1) (Sample.engine [1; 2; 3] Sample.tiled (Some 7)).
Proof.
  apply moveFocus_unmanaged_focuses_first; [lia|by_evaluation|reflexivity].
Defined.

(** X7: steps that agree modulo the number of visible windows lead to the
    same window: [moveFocus] wraps around. *)
Theorem moveFocus_periodic (env : Env) (S S' : Z) (e : Engine) :
  S ≠ 0%Z → S' ≠ 0%Z →
  let N := Z.of_nat (length (visibleWindows (focusContext env e) e)) in
  (S `mod` N = S' `mod` N)%Z →
  moveFocus env S e = moveFocus env S' e.
Proof.
  intros HS HS' N Hmod.
  destruct (visibleWindows (focusContext env e) e) as [|v0 l] eqn:Hvis.
  { assert (Hnone : ∀ s, moveFocus env s e = e).
    { intros s. apply moveFocus_nothing. by right. }
    by rewrite !Hnone. }
  rewrite !moveFocus_step by (try done; by rewrite Hvis).
  rewrite Hvis. fold N.
  destruct (currentWindow e) as [w|]; [|done].
  destruct (Z.ltb_spec (indexOf (v0 :: l) w) 0); [done|].
  assert (HN : (0 < N)%Z) by (subst N; simpl; lia).
  rewrite !cyclic_index by lia.
  rewrite <- (Zplus_mod_idemp_r S), <- (Zplus_mod_idemp_r S'). by rewrite Hmod.
Qed.

Lemma moveFocus_periodic_witness :
  moveFocus (Sample.env true Sample.screen) 1
    (Sample.engine [1; 2; 3] Sample.tiled (Some 2))
  = moveFocus (Sample.env true Sample.screen) (-5)
      (Sample.engine [1; 2; 3] Sample.tiled (Some 2)).
Proof.
  apply moveFocus_periodic; [lia|lia|reflexivity].
Defined.

(** X8: when the windows visible in the context are distinct and the
    window focused by [moveFocus S] belongs to the same context,
    [moveFocus (-S)] brings the focus back to the window it started from. *)
Theorem moveFocus_there_and_back (env : Env) (S : Z) (e : Engine) (w : WinRef) :
  currentWindow e = Some w →
  let ctx := Window.context (heap e w) in
  NoDup (visibleWindows ctx e) →
  w ∈ visibleWindows ctx e →
  (∀ v, v ∈ visibleWindows ctx e → Window.context (heap e v) = ctx) →
  currentWindow (moveFocus env (- S) (moveFocus env S e)) = Some w.
Proof.
  intros Hcur ctx Hnd Hin Hctx.
  destruct (decide (S = 0%Z)) as [->|HS]; [done|].
  set (vis := visibleWindows ctx e) in *.
  apply list_elem_of_lookup in Hin as [i Hi].
  pose proof (lookup_lt_Some _ _ _ Hi) as Hilt.
  set (N := Z.of_nat (length vis)).
  assert (Hmod : (0 ≤ (Z.of_nat i + S) `mod` N < N)%Z) by (apply Z.mod_pos_bound; lia).
  set (j := Z.to_nat ((Z.of_nat i + S) `mod` N)).
  destruct (lookup_lt_is_Some_2 vis j) as [v Hv]; [subst j; lia|].
  (* there *)
  rewrite (moveFocus_at env S e w i) by done. fold ctx vis N j. rewrite Hv.
  set (e1 := setCurrentWindow (Some v) e).
  assert (Hvis1 : visibleWindows (Window.context (heap e1 v)) e1 = vis).
  { change (visibleWindows (Window.context (heap e v)) e = vis).
    rewrite Hctx; [done|]. by eapply list_elem_of_lookup_2. }
  (* and back *)
  rewrite (moveFocus_at env (- S) e1 v j); [|lia|done|by rewrite Hvis1..].
  rewrite Hvis1. fold N. simpl. rewrite <- Hi. f_equal.
  subst j. rewrite Z2Nat.id by lia.
  rewrite Z.add_opp_r, Zminus_mod_idemp_l.
  replace (Z.of_nat i + S - S)%Z with (Z.of_nat i) by lia.
  rewrite Z.mod_small by lia. apply Nat2Z.id.
Qed.

Lemma moveFocus_there_and_back_witness :
  currentWindow
    (moveFocus (Sample.env true Sample.screen) (- 2)
       (moveFocus (Sample.env true Sample.screen) 2
          (Sample.engine [1; 2; 3] Sample.tiled (Some 2))))
  = Some 2.
Proof.
  apply (moveFocus_there_and_back (Sample.env true Sample.screen) 2
           (Sample.engine [1; 2; 3] Sample.tiled (Some 2)) 2).
  - reflexivity.
  - by_evaluation.
  - by_evaluation.
  - intros v _. reflexivity.
Defined.

(** ** Further properties of [moveTile] *)

Lemma moveTile_round_trip_witness :
  moveTile (- 1) (moveTile 1 (Sample.engine [1; 2; 3] Sample.tiled (Some 3)))
  = Sample.engine [1; 2; 3] Sample.tiled (Some 3).
Proof.
  apply (moveTile_round_trip 1 (Sample.engine [1; 2; 3] Sample.tiled (Some 3)));
    by_evaluation.
Defined.

(** X10: in a list without duplicates, with the current window at index
    [i] of the [N] windows visible in its context and the destination
    [(i + S) mod N] another index, [moveTile S] exchanges the current window
    and the visible window at the destination in the list: the two swap
    places, every other place of the list keeps its window, and focus,
    window records and call log are untouched. *)
Theorem moveTile_exchanges (S : Z) (e : Engine) (w : WinRef) (i : nat) :
  S ≠ 0%Z → NoDup (windows e) → currentWindow e = Some w →
  let visibles := visibleWindows (Window.context (heap e w)) e in
  visibles !! i = Some w →
  let j := Z.to_nat ((Z.of_nat i + S) `mod` Z.of_nat (length visibles)) in
  j ≠ i →
  ∃ d a b,
    visibles !! j = Some d
    ∧ windows e !! a = Some w ∧ windows e !! b = Some d ∧ a ≠ b
    ∧ moveTile S e = setWindows (<[a := d]> (<[b := w]> (windows e))) e
    ∧ windows (moveTile S e) ≡ₚ windows e.
Proof.
  intros HS Hnd Hcur visibles Hi j Hji.
  pose proof (lookup_lt_Some _ _ _ Hi) as Hilt.
  assert (Hjlt : j < length visibles).
  { subst j. pose proof (Z.mod_pos_bound (Z.of_nat i + S) (Z.of_nat (length visibles))). lia. }
  destruct (moveTile_managed S e w i) as [_ Hswap]; [done|done|done|done|fold visibles; lia|].
  destruct (Hswap Hji) as (d & Hd & Hdw & Hmove). fold visibles in Hd.
  assert (Hwl : w ∈ windows e).
  { eapply list_elem_of_lookup_2 in Hi. by apply elem_of_visibleWindows in Hi as [_ ?]. }
  assert (Hdl : d ∈ windows e).
  { eapply list_elem_of_lookup_2 in Hd. by apply elem_of_visibleWindows in Hd as [_ ?]. }
  apply list_elem_of_lookup in Hwl as [a Ha].
  apply list_elem_of_lookup in Hdl as [b Hb].
  exists d, a, b. split_and!; [done|done|done| | |].
  - intros ->. congruence.
  - by rewrite Hmove, (swap_as_map _ a b w d).
  - rewrite Hmove. simpl. rewrite <- (swap_as_map _ a b w d) by done.
    by apply Permutation_insert_swap.
Qed.

Lemma moveTile_exchanges_witness :
  windows (moveTile (- 1) (Sample.engine [1; 2; 3] Sample.tiled (Some 1))) ≡ₚ [1; 2; 3].
Proof.
  destruct (moveTile_exchanges (- 1) (Sample.engine [1; 2; 3] Sample.tiled (Some 1)) 1 0)
    as (d & a & b & _ & _ & _ & _ & _ & Hperm).
  - lia.
  - by_evaluation.
  - reflexivity.
  - reflexivity.
  - vm_compute. lia.
  - exact Hperm.
Defined.

(** X11: [moveTile] by a multiple of the number of windows visible in the
    current window's context changes nothing, as it does with fewer than
    two visible windows, without a current window or with step 0. *)
Theorem moveTile_full_turn (S : Z) (e : Engine) :
  currentIsVisible e →
  let N := match currentWindow e with
           | Some w => Z.of_nat (length (visibleWindows (Window.context (heap e w)) e))
           | None => 0%Z
           end in
  (S `mod` N = 0)%Z ∨ (N < 2)%Z →
  moveTile S e = e.
Proof.
  intros Hvis N Hcase. unfold currentIsVisible in Hvis. unfold moveTile.
  case_decide; [done|].
  destruct (currentWindow e) as [w|]; [|done].
  set (vis := visibleWindows (Window.context (heap e w)) e) in *.
  destruct (bool_decide_reflect (length vis < 2)) as [|Hmany]; [done|].
  destruct Hcase as [Hmod|Hfew]; [|subst N; lia].
  destruct (indexOf_cases vis w) as [[_ Hno]|(i & Hidx & Hi & _)]; [done|].
  pose proof (lookup_lt_Some _ _ _ Hi) as Hilt.
  rewrite Hidx. fold N. rewrite cyclic_index by lia.
  rewrite decide_True; [done|].
  rewrite <- Zplus_mod_idemp_r, Hmod, Z.add_0_r. symmetry. apply Z.mod_small. lia.
Qed.

Lemma moveTile_full_turn_witness :
  moveTile 6 (Sample.engine [1; 2; 3] Sample.tiled (Some 2))
  = Sample.engine [1; 2; 3] Sample.tiled (Some 2).
Proof.
  apply moveTile_full_turn; [by_evaluation|left; reflexivity].
Defined.

(** X12: [moveTile] does not check that the current window is managed.
    With a current window that is not in the list and at least two windows
    visible in its context, every non-zero step overwrites one of the
    visible windows in the list with the current one: the list keeps its
    length, the unmanaged window is in it, and it is no rearrangement of the
    old list. *)
Theorem moveTile_unmanaged_overwrites (S : Z) (e : Engine) (w : WinRef) :
  S ≠ 0%Z → currentWindow e = Some w → w ∉ windows e →
  2 ≤ length (visibleWindows (Window.context (heap e w)) e) →
  ∃ d b,
    d ∈ visibleWindows (Window.context (heap e w)) e
    ∧ windows e !! b = Some d
    ∧ moveTile S e = setWindows (<[b := w]> (windows e)) e
    ∧ w ∈ windows (moveTile S e)
    ∧ ¬ (windows (moveTile S e) ≡ₚ windows e).
Proof.
  intros HS Hcur Hout Hmany.
  set (vis := visibleWindows (Window.context (heap e w)) e) in *.
  assert (Hwvis : w ∉ vis).
  { intros [_ Hin]%elem_of_visibleWindows. done. }
  destruct (destWin_defined vis w S) as [d Hd]; [lia|].
  pose proof (destIdx_in_range (indexOf vis w) S (Z.of_nat (length vis))
                (indexOf_lt_length vis w) ltac:(lia)) as Hrange.
  rewrite indexOf_absent in Hd, Hrange by done.
  assert (Hdvis : d ∈ vis).
  { rewrite arrGet_nonneg in Hd by lia. by eapply list_elem_of_lookup_2. }
  assert (Hdl : d ∈ windows e) by (by apply elem_of_visibleWindows in Hdvis as [_ ?]).
  destruct (indexOf_cases (windows e) d) as [[_ Hno]|(b & Hb & Hbd & _)]; [done|].
  assert (Hmove : moveTile S e = setWindows (<[b := w]> (windows e)) e).
  { unfold moveTile. rewrite decide_False by done. rewrite Hcur. fold vis.
    rewrite bool_decide_eq_false_2 by lia.
    rewrite (indexOf_absent vis) by done.
    rewrite decide_False by lia. rewrite Hd.
    rewrite (indexOf_absent (windows e) w), Hb by done.
    by rewrite arrSet_nat. }
  assert (Hin : w ∈ windows (moveTile S e)).
  { rewrite Hmove. simpl. eapply list_elem_of_lookup_2.
    apply list_lookup_insert_eq. by eapply lookup_lt_Some. }
  exists d, b. split_and!; [done..|].
  intros Hperm. apply Hout. by rewrite <- Hperm.
Qed.

Lemma moveTile_unmanaged_overwrites_witness :
  7 ∈ windows (moveTile 1 (Sample.engine [1; 2] Sample.tiled (Some 7))).
Proof.
  destruct (moveTile_unmanaged_overwrites 1
              (Sample.engine [1; 2] Sample.tiled (Some 7)) 7)
    as (d & b & _ & _ & _ & Hin & _).
  - lia.
  - reflexivity.
  - by_evaluation.
  - vm_compute. lia.
  - exact Hin.
Defined.

(** ** Further properties of [arrangeScreen] *)

Lemma normalize_not_tileable cfg win :
  Window.state win ≠ Tile → Window.state win ≠ FreeTile → normalize cfg win = win.
Proof.
  destruct win as [c st g ag nb si sf vis]. simpl. intros HT HF. by destruct st.
Qed.

Lemma normalize_tileable cfg win :
  Window.state win = Tile ∨ Window.state win = FreeTile →
  Window.state (normalize cfg win) = Tile
  ∧ Window.noBorder (normalize cfg win) = noTileBorder cfg.
Proof.
  destruct win as [c st g ag nb si sf vis]. simpl. by intros [->| ->].
Qed.

(** A window outside the visible ones is left alone. *)
Lemma arrangeScreen_outside env ctx e w :
  w ∉ visibleWindows ctx e →
  heap (arrangeScreen env ctx e) w = heap e w
  ∧ WindowCommit w ∉ issued e (arrangeScreen env ctx e).
Proof.
  intros Hout. split.
  - destruct (arrangeScreen_closed env ctx e) as (_ & _ & _ & ->).
    rewrite placed_outside.
    + unfold normalizedHeap. by rewrite decide_False.
    + intros [_ Hvis]%elem_of_tileWindows. done.
  - rewrite issued_arrangeScreen. intros Hin.
    apply elem_of_app in Hin as [Hin|Hin].
    + unfold applyCalls in Hin. repeat case_match; try by apply not_elem_of_nil in Hin.
      by apply list_elem_of_singleton in Hin.
    + apply list_elem_of_fmap in Hin as (r & [= ->] & Hr). done.
Qed.

(** X13: [arrangeScreen] only ever touches windows of the engine's list: a
    window that is not managed keeps its record, visible or not, and is
    not committed. *)
Theorem arrangeScreen_unmanaged_untouched (env : Env) (ctx : Ctx) (e : Engine) (w : WinRef) :
  w ∉ windows e →
  heap (arrangeScreen env ctx e) w = heap e w
  ∧ WindowCommit w ∉ issued e (arrangeScreen env ctx e).
Proof.
  intros Hout. apply arrangeScreen_outside.
  intros [_ Hin]%elem_of_visibleWindows. done.
Qed.

Lemma arrangeScreen_unmanaged_untouched_witness :
  heap (arrangeScreen (Sample.env false Sample.screen) 0
          (Sample.engine [1; 2] Sample.freeTile None)) 7
  = Sample.freeTile 7.
Proof.
  apply (arrangeScreen_unmanaged_untouched (Sample.env false Sample.screen) 0
           (Sample.engine [1; 2] Sample.freeTile None) 7).
  by_evaluation.
Defined.

(** A window that is neither tiled nor free-tiled keeps its record. *)
Lemma arrangeScreen_not_tileable env ctx e w :
  ¬ tileable e w → heap (arrangeScreen env ctx e) w = heap e w.
Proof.
  intros Hnot.
  destruct (arrangeScreen_closed env ctx e) as (_ & _ & _ & ->).
  rewrite placed_outside by (by intros [? _]%elem_of_tileWindows).
  unfold normalizedHeap. case_decide; [|done].
  apply normalize_not_tileable; intros Hst; apply Hnot; [by left|by right].
Qed.

(** X14: a managed window that is visible in the context but neither tiled
    nor free-tiled (a floating window, say) keeps its state, border flag
    and geometry through [arrangeScreen], and is committed all the same. *)
Theorem arrangeScreen_floating_kept (env : Env) (ctx : Ctx) (e : Engine) (w : WinRef) :
  w ∈ visibleWindows ctx e →
  Window.state (heap e w) ≠ Tile →
  Window.state (heap e w) ≠ FreeTile →
  heap (arrangeScreen env ctx e) w = heap e w
  ∧ WindowCommit w ∈ issued e (arrangeScreen env ctx e).
Proof.
  intros Hvis HT HF. split.
  - apply arrangeScreen_not_tileable. by intros [?|?].
  - rewrite issued_arrangeScreen. apply elem_of_app. right.
    by apply list_elem_of_fmap_2.
Qed.

Lemma arrangeScreen_floating_kept_witness :
  heap (arrangeScreen (Sample.env false Sample.screen) 0
          (Sample.engine [1; 2] Sample.sevenIgnored None)) 1
  = Sample.sevenIgnored 1.
Proof.
  apply (arrangeScreen_floating_kept (Sample.env false Sample.screen) 0
           (Sample.engine [1; 2] Sample.sevenIgnored None) 1).
  - by_evaluation.
  - vm_compute. discriminate.
  - vm_compute. discriminate.
Defined.

(** X15: the calls of one [arrangeScreen] end with exactly one commit for
    every window visible in the context, tiled or not, in list order; what
    precedes them holds no commit, and is empty when there is no tile. *)
Theorem arrangeScreen_commits_visible (env : Env) (ctx : Ctx) (e : Engine) :
  ∃ pre,
    issued e (arrangeScreen env ctx e)
    = pre ++ map WindowCommit (visibleWindows ctx e)
    ∧ (∀ w, WindowCommit w ∉ pre)
    ∧ (tileWindows ctx e = [] → pre = []).
Proof.
  exists (applyCalls env ctx (tileWindows ctx e)).
  split; [apply issued_arrangeScreen|]. unfold applyCalls. split.
  - intros w Hin. repeat case_match; try by apply not_elem_of_nil in Hin.
    by apply list_elem_of_singleton in Hin.
  - intros ->. simpl. by rewrite andb_false_r.
Qed.

Lemma arrangeScreen_commits_visible_witness :
  ∃ pre,
    issued (Sample.engine [1; 2] Sample.sevenIgnored None)
      (arrangeScreen (Sample.env true Sample.screen) 0
         (Sample.engine [1; 2] Sample.sevenIgnored None))
    = pre ++ [WindowCommit 1; WindowCommit 2]
    ∧ pre = [].
Proof.
  destruct (arrangeScreen_commits_visible (Sample.env true Sample.screen) 0
              (Sample.engine [1; 2] Sample.sevenIgnored None))
    as (pre & Hissued & _ & Hempty).
  exists pre. split; [exact Hissued|]. apply Hempty. reflexivity.
Defined.

(** X16: outside the sole-tile case, every tile of the pass ends in state
    [Tile] with its border flag set from [CONFIG.noTileBorder]. *)
Theorem arrangeScreen_tile_border (env : Env) (ctx : Ctx) (e : Engine) (w : WinRef) :
  w ∈ tileWindows ctx e →
  ¬ (maximizeSoleTile (CONFIG env) = true ∧ length (tileWindows ctx e) = 1) →
  Window.state (heap (arrangeScreen env ctx e) w) = Tile
  ∧ Window.noBorder (heap (arrangeScreen env ctx e) w) = noTileBorder (CONFIG env).
Proof.
  intros Htile Hnotsole.
  destruct (arrangeScreen_closed env ctx e) as (_ & _ & _ & ->).
  pose proof Htile as [Htileable Hvis]%elem_of_tileWindows.
  assert (Hnorm : normalizedHeap (CONFIG env) (visibleWindows ctx e) (heap e) w
                  = normalize (CONFIG env) (heap e w)).
  { unfold normalizedHeap. by rewrite decide_True. }
  destruct (normalize_tileable (CONFIG env) (heap e w) Htileable) as [Hst Hnb].
  unfold placed.
  destruct (maximizeSoleTile (CONFIG env) && bool_decide (length (tileWindows ctx e) = 1))
    eqn:Hsole.
  { exfalso. apply Hnotsole. apply andb_true_iff in Hsole as [? Hone].
    split; [done|]. by apply bool_decide_eq_true in Hone. }
  case_match.
  - by rewrite assignTo_state, assignTo_noBorder, Hnorm.
  - by rewrite Hnorm.
Qed.

Lemma arrangeScreen_tile_border_witness :
  Window.noBorder
    (heap (arrangeScreen (Sample.env true Sample.screen) 0
             (Sample.engine [1; 2] Sample.freeTile None)) 1)
  = true.
Proof.
  apply (arrangeScreen_tile_border (Sample.env true Sample.screen) 0
           (Sample.engine [1; 2] Sample.freeTile None) 1).
  - by_evaluation.
  - vm_compute. intros [_ Hone]. discriminate.
Defined.

Lemma tileWindows_arrangeScreen_any env ctx ctx' e :
  tileWindows ctx' (arrangeScreen env ctx e) = tileWindows ctx' e.
Proof.
  unfold tileWindows. rewrite visibleWindows_arrangeScreen.
  apply list_filter_iff. intros r. apply tileable_arrangeScreen.
Qed.

(** X17: [arrangeScreen] keeps the list, the focus and, for every context,
    the windows visible in it and the tiles among them. *)
Theorem arrangeScreen_keeps_partition (env : Env) (ctx ctx' : Ctx) (e : Engine) :
  windows (arrangeScreen env ctx e) = windows e
  ∧ currentWindow (arrangeScreen env ctx e) = currentWindow e
  ∧ visibleWindows ctx' (arrangeScreen env ctx e) = visibleWindows ctx' e
  ∧ tileWindows ctx' (arrangeScreen env ctx e) = tileWindows ctx' e.
Proof.
  destruct (arrangeScreen_closed env ctx e) as (Hw & Hcur & _).
  split_and!; [done|done|apply visibleWindows_arrangeScreen|
               apply tileWindows_arrangeScreen_any].
Qed.

(** ** [arrange] *)

Lemma arrangeScreens_closed env l e :
  let e' := foldl (λ e' ctx, arrangeScreen env ctx e') e l in
  windows e' = windows e
  ∧ currentWindow e' = currentWindow e
  ∧ (∀ ctx, visibleWindows ctx e' = visibleWindows ctx e)
  ∧ (∀ ctx, tileWindows ctx e' = tileWindows ctx e)
  ∧ calls e' = calls e ++ concat (map (screenCalls env e) l).
Proof.
  revert e. induction l as [|c l IH]; intros e; simpl.
  { split_and!; try done. by rewrite app_nil_r. }
  destruct (IH (arrangeScreen env c e)) as (Hw & Hcur & Hvis & Htiles & Hcalls).
  destruct (arrangeScreen_closed env c e) as (Hw1 & Hcur1 & Hcalls1 & _).
  split_and!.
  - by rewrite Hw.
  - by rewrite Hcur.
  - intros ctx. by rewrite Hvis, visibleWindows_arrangeScreen.
  - intros ctx. rewrite Htiles. unfold tileWindows.
    rewrite visibleWindows_arrangeScreen.
    apply list_filter_iff. intros r. apply tileable_arrangeScreen.
  - rewrite Hcalls, Hcalls1, <- !app_assoc. f_equal.
    unfold screenCalls at 2. rewrite <- app_assoc. do 3 f_equal.
    apply map_ext. intros ctx. unfold screenCalls, tileWindows.
    rewrite visibleWindows_arrangeScreen. do 3 f_equal.
    apply list_filter_iff. intros r. apply tileable_arrangeScreen.
Qed.

Lemma visibleOn_arrangeScreen env c l e w :
  visibleOn l (arrangeScreen env c e) w ↔ visibleOn l e w.
Proof.
  unfold visibleOn. rewrite !Exists_exists.
  by setoid_rewrite visibleWindows_arrangeScreen.
Qed.

Lemma arrangeScreens_state env l e w :
  Window.state (heap (foldl (λ e' ctx, arrangeScreen env ctx e') e l) w)
  = if decide (Window.state (heap e w) = FreeTile ∧ visibleOn l e w)
    then Tile else Window.state (heap e w).
Proof.
  revert e. induction l as [|c l IH]; intros e; simpl.
  { rewrite decide_False; [done|]. intros [_ Hex]. by apply Exists_nil in Hex. }
  rewrite IH, arrangeScreen_state.
  destruct (decide (w ∈ visibleWindows c e ∧ Window.state (heap e w) = FreeTile))
    as [[Hvis Hfree]|Hnot].
  - rewrite decide_False by (by intros [? _]).
    rewrite decide_True; [done|]. split; [done|]. by apply Exists_cons_hd.
  - destruct (decide (Window.state (heap e w) = FreeTile)) as [Hfree|Hfree].
    + assert (Hout : w ∉ visibleWindows c e) by (intros ?; by apply Hnot).
      destruct (decide (visibleOn l e w)) as [Hl|Hl].
      * rewrite decide_True by (split; [done|by apply visibleOn_arrangeScreen]).
        rewrite decide_True; [done|]. split; [done|]. by apply Exists_cons_tl.
      * rewrite decide_False by (intros [_ ?%visibleOn_arrangeScreen]; done).
        rewrite decide_False; [done|]. intros [_ [?|?]%Exists_cons]; done.
    + rewrite decide_False by (by intros [? _]). by rewrite decide_False by (by intros [? _]).
Qed.

Lemma arrangeScreens_outside env l e w :
  (∀ ctx, ctx ∈ l → w ∉ visibleWindows ctx e) →
  heap (foldl (λ e' ctx, arrangeScreen env ctx e') e l) w = heap e w.
Proof.
  revert e. induction l as [|c l IH]; intros e Hout; simpl; [done|].
  rewrite IH.
  - apply arrangeScreen_outside. apply Hout, list_elem_of_here.
  - intros ctx Hin. rewrite visibleWindows_arrangeScreen.
    by apply Hout, list_elem_of_further.
Qed.

Lemma elem_of_screenCalls env e l w :
  WindowCommit w ∈ concat (map (screenCalls env e) l) ↔ visibleOn l e w.
Proof.
  unfold visibleOn. induction l as [|c l IH]; simpl.
  { rewrite Exists_nil. apply elem_of_nil. }
  rewrite Exists_cons, elem_of_app, IH.
  assert (Hone : WindowCommit w ∈ screenCalls env e c ↔ w ∈ visibleWindows c e);
    [|by rewrite Hone].
  unfold screenCalls. rewrite elem_of_app. split.
  - intros [Hw|Hw].
    + unfold applyCalls in Hw. repeat case_match; try by apply not_elem_of_nil in Hw.
      by apply list_elem_of_singleton in Hw.
    + by apply list_elem_of_fmap in Hw as (r & [= ->] & Hr).
  - intros Hw. right. by apply list_elem_of_fmap_2.
Qed.

(** X18: [arrange] keeps the list and the focus; it commits exactly the
    windows that are visible on one of the driver's screens; a window that
    is visible on none of them keeps its record. *)
Theorem arrange_reaches_visible (env : Env) (e : Engine) :
  windows (arrange env e) = windows e
  ∧ currentWindow (arrange env e) = currentWindow e
  ∧ ∀ w,
      (WindowCommit w ∈ issued e (arrange env e) ↔ onSomeScreen env e w)
      ∧ (¬ onSomeScreen env e w → heap (arrange env e) w = heap e w).
Proof.
  unfold arrange, onSomeScreen.
  destruct (arrangeScreens_closed env (screens env) e) as (Hw & Hcur & _ & _ & Hcalls).
  split_and!; [done|done|]. intros w. split.
  - rewrite (issued_app _ _ _ Hcalls). apply elem_of_screenCalls.
  - intros Hnone. apply arrangeScreens_outside. intros ctx Hctx Hvis.
    apply Hnone. apply Exists_exists. eauto.
Qed.

Lemma arrange_reaches_visible_witness :
  WindowCommit 2
  ∈ issued (Sample.engine [1; 2] Sample.hiddenFreeTile None)
      (arrange (Sample.env true Sample.screen)
         (Sample.engine [1; 2] Sample.hiddenFreeTile None))
  ∧ heap (arrange (Sample.env true Sample.screen)
            (Sample.engine [1; 2] Sample.hiddenFreeTile None)) 1
    = Sample.hiddenFreeTile 1.
Proof.
  destruct (arrange_reaches_visible (Sample.env true Sample.screen)
              (Sample.engine [1; 2] Sample.hiddenFreeTile None)) as (_ & _ & Hall).
  split.
  - apply (Hall 2). by_evaluation.
  - apply (Hall 1). by_evaluation.
Defined.

(** X19: after [arrange] no managed window that is visible on one of the
    driver's screens is free-tiled: it is tiled if it was free-tiled, and in
    the state it had otherwise.  A free-tiled window visible on no screen
    stays free-tiled. *)
Theorem arrange_promotes_freeTile (env : Env) (e : Engine) (w : WinRef) :
  (onSomeScreen env e w →
   Window.state (heap (arrange env e) w) ≠ FreeTile
   ∧ (Window.state (heap e w) = FreeTile → Window.state (heap (arrange env e) w) = Tile)
   ∧ (Window.state (heap e w) ≠ FreeTile →
      Window.state (heap (arrange env e) w) = Window.state (heap e w)))
  ∧ (¬ onSomeScreen env e w →
     Window.state (heap (arrange env e) w) = Window.state (heap e w)).
Proof.
  unfold arrange, onSomeScreen. rewrite arrangeScreens_state. split.
  - intros Hon. split_and!.
    + case_decide as Hd; [done|]. intros Hfree. apply Hd. done.
    + intros Hfree. by rewrite decide_True.
    + intros Hfree. by rewrite decide_False by (by intros [? _]).
  - intros Hoff. by rewrite decide_False by (by intros [_ ?]).
Qed.

Lemma arrange_promotes_freeTile_witness :
  Window.state
    (heap (arrange (Sample.env true Sample.screen)
             (Sample.engine [1; 2] Sample.freeTile None)) 1)
  = Tile.
Proof.
  destruct (arrange_promotes_freeTile (Sample.env true Sample.screen)
              (Sample.engine [1; 2] Sample.freeTile None) 1) as [Hon _].
  destruct Hon as (_ & Hfree & _).
  - by_evaluation.
  - apply Hfree. reflexivity.
Defined.

(** ** Passes as overwrites *)

Lemma overwrite_none win : overwrite noOverwrite win = win.
Proof. by destruct win. Qed.

Lemma overwrite_then o1 o2 win :
  overwrite o2 (overwrite o1 win) = overwrite (thenOverwrite o1 o2) win.
Proof.
  destruct o1 as [[s1|] [b1|] [g1|]], o2 as [[s2|] [b2|] [g2|]]; reflexivity.
Qed.

Lemma overwrite_idem o win : overwrite o (overwrite o win) = overwrite o win.
Proof. destruct o as [[s|] [b|] [g|]]; reflexivity. Qed.

Lemma assignTo_overwrite w zs win :
  assignTo w zs win = overwrite (mkOverwrite None None (lastAssigned w zs)) win.
Proof.
  induction zs as [|z zs IH] using rev_ind.
  { by destruct win. }
  rewrite assignTo_snoc. unfold lastAssigned. rewrite foldl_app. simpl.
  fold (lastAssigned w zs). case_decide; [|done].
  rewrite IH. by destruct (lastAssigned w zs).
Qed.

Lemma normalize_overwrite cfg win :
  normalize cfg win
  = overwrite (if decide (Window.state win = Tile ∨ Window.state win = FreeTile)
               then mkOverwrite (Some Tile) (Some (noTileBorder cfg)) None
               else noOverwrite) win.
Proof.
  destruct win as [c st g ag nb si sf vis]. destruct st; reflexivity.
Qed.

Lemma sameHost_refl h : sameHost h h.
Proof. intros w. done. Qed.

Lemma sameHost_sym h h' : sameHost h h' → sameHost h' h.
Proof. intros H w. destruct (H w) as (-> & -> & -> & -> & -> & ->). done. Qed.

Lemma sameHost_trans h1 h2 h3 : sameHost h1 h2 → sameHost h2 h3 → sameHost h1 h3.
Proof.
  intros H12 H23 w.
  destruct (H12 w) as (-> & -> & -> & -> & -> & ->). apply H23.
Qed.

Lemma sameHost_overwrite h (k : WinRef → Overwrite) :
  (∀ w, newState (k w) = None
        ∨ (newState (k w) = Some Tile
           ∧ (Window.state (h w) = Tile ∨ Window.state (h w) = FreeTile))) →
  sameHost h (λ w, overwrite (k w) (h w)).
Proof.
  intros Hk w. simpl. split_and!; try done.
  destruct (Hk w) as [->|[-> Htile]]; simpl; [done|]. split; [by left|done].
Qed.

Lemma sameHost_visibleWindows ctx e e' :
  windows e' = windows e → sameHost (heap e) (heap e') →
  visibleWindows ctx e' = visibleWindows ctx e.
Proof.
  intros Hw Hsame. unfold visibleWindows. rewrite Hw.
  apply list_filter_iff. intros r. unfold visibleIn.
  destruct (Hsame r) as (_ & _ & _ & _ & -> & _). done.
Qed.

Lemma sameHost_tileable e e' r :
  sameHost (heap e) (heap e') → tileable e' r ↔ tileable e r.
Proof. intros Hsame. unfold tileable. destruct (Hsame r) as (_ & _ & _ & _ & _ & ->). done. Qed.

Lemma sameHost_tileWindows ctx e e' :
  windows e' = windows e → sameHost (heap e) (heap e') →
  tileWindows ctx e' = tileWindows ctx e.
Proof.
  intros Hw Hsame. unfold tileWindows. rewrite (sameHost_visibleWindows ctx e e') by done.
  apply list_filter_iff. intros r. by apply sameHost_tileable.
Qed.

Lemma screenOverwrite_state env ctx e w :
  newState (screenOverwrite env ctx e w) = None
  ∨ (newState (screenOverwrite env ctx e w) = Some Tile
     ∧ (Window.state (heap e w) = Tile ∨ Window.state (heap e w) = FreeTile)).
Proof.
  unfold screenOverwrite.
  destruct (decide (w ∈ visibleWindows ctx e ∧ tileable e w)) as [[_ Htile]|_];
    repeat case_match; simpl; auto.
Qed.

(** [arrangeScreen], started from any engine that agrees with [e] on the
    list and on what the host owns, writes what [screenOverwrite] reads off
    [e]. *)
Lemma arrangeScreen_overwrites env ctx e e' w :
  deterministic (getCurrentLayout env ctx) →
  windows e' = windows e → sameHost (heap e) (heap e') →
  heap (arrangeScreen env ctx e') w = overwrite (screenOverwrite env ctx e w) (heap e' w).
Proof.
  intros Hdet Hw Hsame.
  destruct (arrangeScreen_closed env ctx e') as (_ & _ & _ & ->).
  rewrite (sameHost_tileWindows ctx e e'), (sameHost_visibleWindows ctx e e') by done.
  unfold screenOverwrite. rewrite <- overwrite_then.
  set (vis := visibleWindows ctx e). set (tiles := tileWindows ctx e).
  assert (Hreset : ∀ r,
    normalizedHeap (CONFIG env) vis (heap e') r
    = overwrite (if decide (r ∈ vis ∧ tileable e r)
                 then mkOverwrite (Some Tile) (Some (noTileBorder (CONFIG env))) None
                 else noOverwrite) (heap e' r)).
  { intros r. unfold normalizedHeap.
    destruct (decide (r ∈ vis)) as [Hin|Hout].
    - rewrite normalize_overwrite.
      destruct (decide (tileable e r)) as [Ht|Ht].
      + rewrite decide_True by (by apply (sameHost_tileable e e')).
        by rewrite decide_True.
      + rewrite decide_False by (intros ?; by apply Ht, (sameHost_tileable e e')).
        by rewrite decide_False by (by intros [_ ?]).
    - rewrite decide_False by (by intros [? _]). by rewrite overwrite_none. }
  rewrite <- Hreset. unfold placed.
  destruct (maximizeSoleTile (CONFIG env) && bool_decide (length tiles = 1)).
  - destruct (arrGet tiles 0) as [t0|].
    + case_decide; [|by rewrite overwrite_none].
      by destruct (normalizedHeap _ _ _ w).
    + by rewrite overwrite_none.
  - destruct (bool_decide (0 < length tiles)); [|by rewrite overwrite_none].
    rewrite assignTo_overwrite. do 4 f_equal.
    apply Hdet. clear w.
    assert (Hin : ∀ r, r ∈ tiles → r ∈ tiles) by done. revert Hin.
    generalize tiles at 1 3 4 as ts.
    induction ts as [|t ts IH]; intros Hin; simpl; constructor.
    + split; [done|]. simpl.
      assert (Ht : t ∈ tiles) by apply Hin, list_elem_of_here.
      apply elem_of_tileWindows in Ht as [Htile Hvis].
      unfold normalizedHeap. rewrite !decide_True by done.
      rewrite !normalize_overwrite.
      rewrite decide_True by done.
      rewrite decide_True by (by apply (sameHost_tileable e e')).
      destruct (Hsame t) as (Hc & Hag & Hsi & Hsf & Hv & _).
      destruct (heap e t), (heap e' t). simpl in *. by subst.
    + apply IH. intros r Hr. by apply Hin, list_elem_of_further.
Qed.

Lemma arrangeScreen_sameHost env ctx e :
  deterministic (getCurrentLayout env ctx) →
  sameHost (heap e) (heap (arrangeScreen env ctx e)).
Proof.
  intros Hdet.
  pose proof (sameHost_overwrite (heap e) (screenOverwrite env ctx e)
                (screenOverwrite_state env ctx e)) as Hsame.
  intros w. specialize (Hsame w). simpl in Hsame.
  by rewrite (arrangeScreen_overwrites env ctx e e w Hdet eq_refl (sameHost_refl _)).
Qed.

Lemma arrangeScreens_overwrites env l e e' w :
  (∀ ctx, ctx ∈ l → deterministic (getCurrentLayout env ctx)) →
  windows e' = windows e → sameHost (heap e) (heap e') →
  heap (foldl (λ e1 ctx, arrangeScreen env ctx e1) e' l) w
  = overwrite (screensOverwrite env l e w) (heap e' w)
  ∧ sameHost (heap e') (heap (foldl (λ e1 ctx, arrangeScreen env ctx e1) e' l)).
Proof.
  revert e e'. induction l as [|c l IH]; intros e e' Hdet Hw Hsame; simpl.
  { split; [by rewrite overwrite_none|apply sameHost_refl]. }
  assert (Hc : deterministic (getCurrentLayout env c)) by apply Hdet, list_elem_of_here.
  assert (Hl : ∀ ctx, ctx ∈ l → deterministic (getCurrentLayout env ctx))
    by (intros ctx ?; by apply Hdet, list_elem_of_further).
  destruct (IH (arrangeScreen env c e) (arrangeScreen env c e') Hl) as [Hheap Hhost].
  - destruct (arrangeScreen_closed env c e) as (-> & _).
    by destruct (arrangeScreen_closed env c e') as (-> & _).
  - eapply sameHost_trans; [apply sameHost_sym, arrangeScreen_sameHost, Hc|].
    eapply sameHost_trans; [exact Hsame|]. by apply arrangeScreen_sameHost.
  - split.
    + rewrite Hheap, <- overwrite_then. f_equal. by apply arrangeScreen_overwrites.
    + eapply sameHost_trans; [by apply arrangeScreen_sameHost|exact Hhost].
Qed.

(** X20: with deterministic layouts on the driver's screens, [arrange] run
    twice in a row leaves every window record, and so every geometry, as
    the first run left it, also when windows are visible on several
    screens. *)
Theorem arrange_idempotent (env : Env) (e : Engine) :
  (∀ ctx, ctx ∈ screens env → deterministic (getCurrentLayout env ctx)) →
  ∀ w, heap (arrange env (arrange env e)) w = heap (arrange env e) w.
Proof.
  intros Hdet w. unfold arrange.
  destruct (arrangeScreens_overwrites env (screens env) e e w Hdet eq_refl
              (sameHost_refl _)) as [Hfirst Hhost].
  destruct (arrangeScreens_closed env (screens env) e) as (Hw & _).
  destruct (arrangeScreens_overwrites env (screens env) e
              (foldl (λ e1 ctx, arrangeScreen env ctx e1) e (screens env)) w
              Hdet Hw Hhost) as [Hsecond _].
  rewrite Hsecond, Hfirst. apply overwrite_idem.
Qed.

Lemma arrange_idempotent_witness :
  Window.geometry
    (heap (arrange (Sample.env false Sample.screen)
             (arrange (Sample.env false Sample.screen)
                (Sample.engine [1; 2; 3] Sample.freeTile None))) 2)
  = Rect.mk 10 20 1880 1020.
Proof.
  rewrite (arrange_idempotent (Sample.env false Sample.screen)
             (Sample.engine [1; 2; 3] Sample.freeTile None)).
  - reflexivity.
  - intros ctx _. apply monocle_deterministic.
Defined.

(** ** The deferred commit and [unmanageClient] *)

Lemma unmanageClient_gone w e :
  NoDup (windows e) → w ∉ windows (unmanageClient w e).
Proof.
  intros Hnd.
  destruct (indexOf_cases (windows e) w) as [[_ Hno]|(i & _ & Hi & Hfirst)].
  - by rewrite unmanageClient_absent.
  - rewrite (unmanageClient_at i) by done. simpl.
    rewrite (delete_first_filter _ i w) by done.
    by intros [Hne _]%list_elem_of_filter.
Qed.

(** X21: [unmanageClient] leaves the window's state alone, and the deferred
    callback of [enforceClientSize] looks at the state only: a re-commit
    pending for a tiled window still commits it after the window has been
    unmanaged and is gone from the list. *)
Theorem recommit_survives_unmanage (w : WinRef) (e : Engine) :
  NoDup (windows e) →
  Window.state (heap e w) = Tile →
  let e' := unmanageClient w e in
  (w ∉ windows e')
  ∧ runCallback (RecommitIfTiled w) e' = commit w e'
  ∧ issued e' (runCallback (RecommitIfTiled w) e') = [WindowCommit w].
Proof.
  intros Hnd Hst e'.
  assert (Hheap : heap e' = heap e).
  { subst e'. unfold unmanageClient. by destruct (0 <=? _)%Z. }
  assert (Hrun : runCallback (RecommitIfTiled w) e' = commit w e').
  { simpl. by rewrite Hheap, decide_True. }
  split; [by apply unmanageClient_gone|]. split; [done|].
  rewrite Hrun. apply issued_call.
Qed.

Lemma recommit_survives_unmanage_witness :
  issued (unmanageClient 2 (Sample.engine [1; 2] Sample.tiled None))
    (runCallback (RecommitIfTiled 2)
       (unmanageClient 2 (Sample.engine [1; 2] Sample.tiled None)))
  = [WindowCommit 2].
Proof.
  apply (recommit_survives_unmanage 2 (Sample.engine [1; 2] Sample.tiled None));
    [by_evaluation|reflexivity].
Defined.

(** ** [adjustLayout] *)

Lemma filter_iff_on {A} (P1 P2 : A → Prop)
    `{!∀ x, Decision (P1 x), !∀ x, Decision (P2 x)} (l : list A) :
  (∀ x, x ∈ l → (P1 x ↔ P2 x)) → filter P1 l = filter P2 l.
Proof.
  induction l as [|x l IH]; intros Hiff; [done|].
  rewrite !filter_cons, IH by (intros y Hy; by apply Hiff, list_elem_of_further).
  destruct (decide (P1 x)) as [H1|H1], (decide (P2 x)) as [H2|H2]; try done; exfalso.
  - apply H2, (Hiff x); [apply list_elem_of_here|done].
  - apply H1, (Hiff x); [apply list_elem_of_here|done].
Qed.

Lemma normalize_context cfg win :
  Window.context (normalize cfg win) = Window.context win.
Proof. destruct win as [c st g ag nb si sf vis]. destruct st; reflexivity. Qed.

Lemma arrangeScreen_context env ctx e w :
  Window.context (heap (arrangeScreen env ctx e) w) = Window.context (heap e w).
Proof.
  destruct (arrangeScreen_closed env ctx e) as (_ & _ & _ & ->).
  assert (Hplaced : ∀ h, Window.context (placed env ctx (tileWindows ctx e) h w)
                         = Window.context (h w)).
  { intros h. unfold placed. repeat case_match; try done.
    by rewrite <- assignTo_setGeometry_same. }
  rewrite Hplaced. unfold normalizedHeap. case_decide; [apply normalize_context|done].
Qed.

Lemma adjustTiles_arrangeScreen env ctx e :
  adjustTiles ctx (arrangeScreen env ctx e) = tileWindows ctx e.
Proof.
  unfold adjustTiles, tileWindows, visibleWindows.
  destruct (arrangeScreen_closed env ctx e) as (-> & _).
  rewrite list_filter_filter. apply filter_iff_on. intros r Hr.
  unfold visibleIn, tileable. rewrite arrangeScreen_visible, arrangeScreen_state.
  split.
  - intros [Hst Hvis]. split; [|done].
    case_decide as Hd; [by right; apply Hd|by left].
  - intros [Htile Hvis]. split; [|done].
    destruct Htile as [HT|HF].
    + rewrite HT. by case_decide.
    + rewrite decide_True; [done|]. split; [|done]. by apply elem_of_visibleWindows.
Qed.

(** X22: after [arrangeScreen] for the context of the basis window,
    [adjustLayout] hands the layout's [adjust] the full working area and
    exactly the tiles that pass gave to the layout, in the same order;
    without the [adjust] capability it does nothing. *)
Theorem adjustLayout_after_arrangeScreen
    (store : LayoutStore) (env : Env) (e : Engine) (basis : WinRef) :
  let ctx := Window.context (heap e basis) in
  let e' := arrangeScreen env ctx e in
  match layoutAdjust store (getCurrentLayout env) ctx with
  | Some adjust =>
      adjustLayout store env basis e'
      = withLayouts
          (adjust (getWorkingArea env ctx)
                  (map (λ r, (r, heap e' r)) (tileWindows ctx e)) basis) env
  | None => adjustLayout store env basis e' = env
  end.
Proof.
  intros ctx e'. unfold adjustLayout. subst e'.
  rewrite arrangeScreen_context. fold ctx.
  destruct (layoutAdjust store (getCurrentLayout env) ctx); [|done].
  by rewrite adjustTiles_arrangeScreen.
Qed.

(** ** [handleUserInput] *)

Lemma moveFocus_frame env S e :
  windows (moveFocus env S e) = windows e
  ∧ heap (moveFocus env S e) = heap e
  ∧ ∃ cs, calls (moveFocus env S e) = calls e ++ cs.
Proof.
  assert (Hset : ∀ o, windows (setCurrentWindow o e) = windows e
                      ∧ heap (setCurrentWindow o e) = heap e
                      ∧ ∃ cs, calls (setCurrentWindow o e) = calls e ++ cs).
  { intros o. split; [done|]. split; [done|]. by eexists. }
  assert (Hsame : windows e = windows e ∧ heap e = heap e
                  ∧ ∃ cs, calls e = calls e ++ cs).
  { split; [done|]. split; [done|]. exists []. by rewrite app_nil_r. }
  unfold moveFocus. repeat case_match; done.
Qed.

Lemma moveTile_frame S e :
  heap (moveTile S e) = heap e ∧ calls (moveTile S e) = calls e.
Proof. unfold moveTile. repeat case_match; done. Qed.

Lemma setMaster_frame w e :
  heap (setMaster w e) = heap e ∧ calls (setMaster w e) = calls e.
Proof. unfold setMaster. repeat case_match; done. Qed.

(** With the guard of [moveFocus] in force, [moveTile] rearranges. *)
Lemma moveTile_Permutation S e :
  NoDup (windows e) → currentIsVisible e → windows (moveTile S e) ≡ₚ windows e.
Proof.
  intros Hnd Hvis. unfold currentIsVisible in Hvis.
  destruct (decide (S = 0%Z)) as [->|HS]; [done|].
  destruct (currentWindow e) as [w|] eqn:Hcur.
  2:{ unfold moveTile. rewrite Hcur. by case_decide. }
  set (vis := visibleWindows (Window.context (heap e w)) e) in *.
  destruct (decide (length vis < 2)) as [Hfew|Hmany].
  { unfold moveTile. rewrite Hcur. fold vis.
    rewrite bool_decide_eq_true_2 by done. by case_decide. }
  apply list_elem_of_lookup in Hvis as [i Hi].
  destruct (moveTile_managed S e w i) as [Hstay Hswap];
    [done|done|done|done|fold vis; lia|].
  fold vis in Hstay, Hswap.
  destruct (decide (Z.to_nat ((Z.of_nat i + S) `mod` Z.of_nat (length vis)) = i))
    as [Hji|Hji].
  - by rewrite (Hstay Hji).
  - destruct (Hswap Hji) as (d & Hd & _ & ->). simpl.
    assert (Hwl : w ∈ windows e).
    { eapply list_elem_of_lookup_2 in Hi. by apply elem_of_visibleWindows in Hi as [_ ?]. }
    assert (Hdl : d ∈ windows e).
    { eapply list_elem_of_lookup_2 in Hd. by apply elem_of_visibleWindows in Hd as [_ ?]. }
    apply list_elem_of_lookup in Hwl as [a Ha].
    apply list_elem_of_lookup in Hdl as [b Hb].
    rewrite <- (swap_as_map _ a b w d) by done.
    by apply Permutation_insert_swap.
Qed.

Lemma setMaster_Permutation w e : windows (setMaster w e) ≡ₚ windows e.
Proof.
  destruct (setMaster_cases w e) as [->|(i & Hi & ->)]; [done|]. simpl.
  symmetry. by apply delete_Permutation.
Qed.

(** What the [switch] leaves: the same window records up to the toggle of
    the current window, and a log that only grew. *)
Lemma dispatch_calls store input data env e :
  ∃ cs, calls (dispatch store input data env e).2 = calls e ++ cs.
Proof.
  assert (Hsame : ∃ cs, calls e = calls e ++ cs) by (exists []; by rewrite app_nil_r).
  destruct input; simpl; try done.
  - apply moveFocus_frame.
  - apply moveFocus_frame.
  - destruct (moveTile_frame (-1) e) as [_ ->]. done.
  - destruct (moveTile_frame 1 e) as [_ ->]. done.
  - destruct (currentWindow e); [|done]. simpl.
    destruct (setMaster_frame w e) as [_ ->]. done.
  - by destruct (currentWindow e).
Qed.

Lemma handleUserInput_shape store input data env e :
  ∃ env' e2 cs,
    handleUserInput store input data env e = (env', arrange env' e2)
    ∧ calls e2 = calls e ++ cs
    ∧ (e2 = e ∨ e2 = (dispatch store input data
                        (layoutAnswer store input data env).1 e).2).
Proof.
  unfold handleUserInput.
  destruct (layoutAnswer store input data env) as [env1 [|]] eqn:Hanswer.
  - exists env1, e, []. split; [done|]. split; [by rewrite app_nil_r|by left].
  - simpl. destruct (dispatch_calls store input data env1 e) as [cs Hcs].
    destruct (dispatch store input data env1 e) as [env2 e2] eqn:Hd.
    exists env2, e2, cs. split; [done|]. split; [done|by right].
Qed.

Lemma arrange_not_tileable env e w :
  ¬ tileable e w → heap (arrange env e) w = heap e w.
Proof.
  unfold arrange. generalize (screens env) as l. intros l. revert e.
  induction l as [|c l IH]; intros e Hnot; simpl; [done|].
  rewrite IH.
  - by apply arrangeScreen_not_tileable.
  - by rewrite tileable_arrangeScreen.
Qed.

(** X23: every input ends with an arrangement: whatever the input, the
    layout's answer to it and the registry do, every window that is visible
    on one of the driver's screens afterwards has been committed. *)
Theorem handleUserInput_commits (store : LayoutStore) (input : UserInput.t)
    (data : option Data) (env : Env) (e : Engine) (w : WinRef) :
  let after := handleUserInput store input data env e in
  onSomeScreen after.1 after.2 w →
  WindowCommit w ∈ issued e after.2.
Proof.
  intros after. subst after.
  destruct (handleUserInput_shape store input data env e)
    as (env' & e2 & cs & -> & Hcs & _). simpl.
  unfold onSomeScreen, arrange.
  destruct (arrangeScreens_closed env' (screens env') e2) as (_ & _ & Hvis & _ & Hcalls).
  intros Hon.
  assert (Hon2 : visibleOn (screens env') e2 w).
  { unfold visibleOn in *. rewrite Exists_exists in *.
    destruct Hon as (ctx & Hctx & Hw). exists ctx. by rewrite <- Hvis. }
  rewrite Hcs, <- app_assoc in Hcalls. rewrite (issued_app _ _ _ Hcalls).
  apply elem_of_app. right. by apply elem_of_screenCalls.
Qed.

Lemma handleUserInput_commits_witness :
  WindowCommit 2
  ∈ issued (Sample.engine [1; 2; 3] Sample.tiled (Some 1))
      (handleUserInput plainStore
         UserInput.ShiftDown None (Sample.env true Sample.screen)
         (Sample.engine [1; 2; 3] Sample.tiled (Some 1))).2.
Proof.
  apply (handleUserInput_commits
           plainStore
           UserInput.ShiftDown None (Sample.env true Sample.screen)
           (Sample.engine [1; 2; 3] Sample.tiled (Some 1)) 2).
  by_evaluation.
Defined.

(** X24: with a list without duplicates and a current window that is
    among the windows visible in its context (or none), no input adds a
    window to the list or loses one: the list afterwards is a
    rearrangement of the list before. *)
Theorem handleUserInput_rearranges (store : LayoutStore) (input : UserInput.t)
    (data : option Data) (env : Env) (e : Engine) :
  NoDup (windows e) → currentIsVisible e →
  windows (handleUserInput store input data env e).2 ≡ₚ windows e.
Proof.
  intros Hnd Hvis.
  destruct (handleUserInput_shape store input data env e)
    as (env' & e2 & cs & -> & _ & He2). simpl.
  destruct (arrangeScreens_closed env' (screens env') e2) as (Hw & _).
  unfold arrange. rewrite Hw.
  destruct He2 as [->| ->]; [done|].
  destruct input; simpl; try done.
  - by destruct (moveFocus_frame (layoutAnswer store UserInput.Up data env).1 (-1) e) as [-> _].
  - by destruct (moveFocus_frame (layoutAnswer store UserInput.Down data env).1 1 e) as [-> _].
  - by apply moveTile_Permutation.
  - by apply moveTile_Permutation.
  - destruct (currentWindow e); [|done]. apply setMaster_Permutation.
  - by destruct (currentWindow e).
Qed.

Lemma handleUserInput_rearranges_witness :
  windows (handleUserInput
             plainStore
             UserInput.ShiftDown None (Sample.env true Sample.screen)
             (Sample.engine [1; 2; 3] Sample.tiled (Some 1))).2
  ≡ₚ [1; 2; 3].
Proof.
  apply (handleUserInput_rearranges
           plainStore
           UserInput.ShiftDown None (Sample.env true Sample.screen)
           (Sample.engine [1; 2; 3] Sample.tiled (Some 1))); by_evaluation.
Defined.

(** X25: unless the layout handles it, the input [Float] makes a floating
    current window tiled and any other current window floating, and the
    arrangement that follows keeps that state; a window that has become
    floating keeps its geometry and border flag through it. *)
Theorem handleUserInput_float_toggles (store : LayoutStore) (data : option Data)
    (env : Env) (e : Engine) (w : WinRef) :
  (layoutAnswer store UserInput.Float data env).2 = false →
  currentWindow e = Some w →
  let after := (handleUserInput store UserInput.Float data env e).2 in
  Window.state (heap after w)
  = (if decide (Window.state (heap e w) = Float) then Tile else Float)
  ∧ (Window.state (heap e w) ≠ Float →
     heap after w = Window.setState Float (heap e w)).
Proof.
  intros Hanswer Hcur after. subst after. unfold handleUserInput.
  destruct (layoutAnswer store UserInput.Float data env) as [env1 overriden].
  simpl in Hanswer. subst overriden. simpl. rewrite Hcur. simpl.
  set (e1 := updWindow w toggleFloat e).
  assert (Hw : heap e1 w = toggleFloat (heap e w)).
  { subst e1. by rewrite heap_updWindow, decide_True. }
  split.
  - unfold arrange. rewrite arrangeScreens_state, Hw.
    unfold toggleFloat. simpl.
    rewrite decide_False; [done|]. intros [Hfree _]. by case_decide.
  - intros Hnot. rewrite arrange_not_tileable.
    + rewrite Hw. unfold toggleFloat. by rewrite decide_False.
    + unfold tileable. rewrite Hw. unfold toggleFloat. simpl.
      rewrite decide_False by done. by intros [?|?].
Qed.

Lemma handleUserInput_float_toggles_witness :
  Window.state
    (heap (handleUserInput
             plainStore
             UserInput.Float None (Sample.env true Sample.screen)
             (Sample.engine [1; 2; 3] Sample.tiled (Some 1))).2 1)
  = Float.
Proof.
  apply (handleUserInput_float_toggles
           plainStore
           None (Sample.env true Sample.screen)
           (Sample.engine [1; 2; 3] Sample.tiled (Some 1)) 1); reflexivity.
Defined.
